(** * Background removal: the local fallback heuristic and the compositor

    A shallow embedding of [fallback_mask], [apply_mask_and_save],
    [load_pickle_model] and the model hook of [process_local] (app.py),
    together with the parts of numpy and Pillow these functions call; of
    [allowed_file], [save_upload], [cleanup_old_files], [call_provider] and
    the two views around them; and of the pickle that
    scripts/create_dummy_pickles.py writes.

    Conventions of the embedding.
    - An H x W x 3 array of uint8 is an [ndarray] of shape [[H; W]] whose
      elements are [rgb] triples: the trailing axis of length 3 is the triple.
    - The floating-point operations numpy performs are the fields of the
      class [Arithmetic].  The instance [binary64] evaluates them as the
      source does, in IEEE 754 double precision; the instance [reals] reads
      them as operations on real numbers.  What is proved for every
      arithmetic holds for both.
    - Pillow's blur weighs the centre pixel by a constant that depends on
      the floating-point precision of the build; it is the field of the class
      [Pillow], and what is proved for every weight holds for every build.
    - Python exceptions (the subclasses of Exception) are values of [exn]; a
      call that can raise returns [result].
    - [process_local] is embedded from the decoded upload on; writing the PNG
      file is taken to succeed, and the result of [apply_mask_and_save] is
      the image written.
    - What a model returns is an array of integers and floats; numpy gives
      it a type by its elements, and the cast of a float to uint8, which C
      leaves undefined beyond the target, is embedded as x86-64 performs it.
    - A Python [str] is the list of its characters; [secure_filename] is
      embedded for names of ASCII characters on a POSIX system.
    - A view runs on a [disk] of two folders and returns the disk it leaves
      with its reply, or with the exception it does not catch.  The random
      names of [uuid4], the clock, the environment, the decoders of Pillow,
      the drawing of a text and [requests.post] are arguments. *)

From Stdlib Require Import String Ascii Reals Lra.
From Stdlib Require Floats.
From Stdlib Require Import Bool Arith ZArith QArith List Lia.
Import ListNotations.

Local Open Scope nat_scope.

(** ** Exceptions *)

(** The exceptions the embedded code raises itself, and [Raised] for
    whatever else the [predict] of an unpickled object may raise. *)
Inductive exn : Type :=
| FileNotFoundError
| RuntimeError
| TypeError
| IndexError
| OverflowError
| ValueError_too_many_dimensions
| ValueError_images_do_not_match
| Raised (code : nat).

Definition result (A : Type) : Type := (exn + A)%type.

Definition ret {A : Type} (a : A) : result A := inr a.
Definition raise {A : Type} (e : exn) : result A := inl e.
Definition bind {A B : Type} (c : result A) (k : A -> result B) : result B :=
  match c with
  | inl e => inl e
  | inr a => k a
  end.

Declare Scope py_scope.
Delimit Scope py_scope with py.
Notation "x <- c ;; k" := (bind c (fun x => k))
  (at level 61, c at next level, right associativity) : py_scope.

(** [try: body / except Exception: handler] *)
Definition try_except {A : Type} (body : result A) (handler : exn -> A) : A :=
  match body with
  | inr a => a
  | inl e => handler e
  end.

(** ** numpy arrays *)

Record ndarray (A : Type) : Type := mk_array { shape : list nat; buf : list A }.
Arguments mk_array {A} shape buf.
Arguments shape {A} n.
Arguments buf {A} n.

Definition size_of (sh : list nat) : nat := fold_right Nat.mul 1 sh.

Definition wf_array {A : Type} (a : ndarray A) : Prop :=
  length (buf a) = size_of (shape a).

Definition ndim {A : Type} (a : ndarray A) : nat := length (shape a).

(** [h, w = arr.shape[:2]] *)
Definition shape_hw {A : Type} (a : ndarray A) : nat * nat :=
  match shape a with
  | h :: w :: _ => (h, w)
  | _ => (0, 0)
  end.

(** [a[i, j]] of a two-dimensional array in C order. *)
Definition item2 {A : Type} (d : A) (a : ndarray A) (i j : nat) : A :=
  nth (i * snd (shape_hw a) + j) (buf a) d.

(** [a[i, j, k]] of a three-dimensional array in C order. *)
Definition item3 {A : Type} (d : A) (a : ndarray A) (i j k : nat) : A :=
  match shape a with
  | [_; w; c] => nth ((i * w + j) * c + k) (buf a) d
  | _ => d
  end.

(** An H x W array given by its entries. *)
Definition tabulate2 {A : Type} (h w : nat) (f : nat -> nat -> A) : list A :=
  map (fun k => f (k / w) (k mod w)) (seq 0 (h * w)).

(** Python's slice bounds for step 1 (PySlice_AdjustIndices). *)
Definition adjust_index (len i : Z) : Z :=
  if (i <? 0)%Z then Z.max 0 (i + len) else Z.min i len.

Definition slice_bounds (start stop : option Z) (len : Z) : Z * Z :=
  (match start with None => 0%Z | Some s => adjust_index len s end,
   match stop with None => len | Some e => adjust_index len e end).

(** [range(lo, hi)] for non-negative bounds. *)
Definition range (lo hi : Z) : list nat :=
  seq (Z.to_nat lo) (Z.to_nat (hi - lo)).

(** [a[rs:re, cs:ce].reshape(-1, 3)]: the pixels of the window, row by row. *)
Definition slice2 {A : Type} (d : A) (a : ndarray A)
    (rows cols : option Z * option Z) : list A :=
  let '(h, w) := shape_hw a in
  let '(r0, r1) := slice_bounds (fst rows) (snd rows) (Z.of_nat h) in
  let '(c0, c1) := slice_bounds (fst cols) (snd cols) (Z.of_nat w) in
  flat_map (fun i => map (fun j => item2 d a i j) (range c0 c1)) (range r0 r1).

(** ** Pillow images *)

Definition rgb : Type := (Z * Z * Z)%type.
Definition rgba : Type := (Z * Z * Z * Z)%type.

Definition black : rgb := (0, 0, 0)%Z.
Definition transparent : rgba := (0, 0, 0, 0)%Z.

Definition red (p : rgb) : Z := fst (fst p).
Definition green (p : rgb) : Z := snd (fst p).
Definition blue (p : rgb) : Z := snd p.

(** The channels of a pixel are bytes. *)
Definition uint8 (p : rgb) : Prop :=
  (0 <= red p <= 255 /\ 0 <= green p <= 255 /\ 0 <= blue p <= 255)%Z.

Record image (A : Type) : Type :=
  mk_image { width : nat; height : nat; pixels : list A }.
Arguments mk_image {A} width height pixels.
Arguments width {A} i.
Arguments height {A} i.
Arguments pixels {A} i.

Definition wf_image {A : Type} (im : image A) : Prop :=
  length (pixels im) = height im * width im.

Definition getpixel {A : Type} (d : A) (im : image A) (x y : nat) : A :=
  nth (y * width im + x) (pixels im) d.

Definition rgb_of (p : rgba) : rgb := let '(r, g, b, _) := p in (r, g, b).
Definition alpha_of (p : rgba) : Z := let '(_, _, _, a) := p in a.

(** [im.convert('RGB')] of an RGBA image drops the alpha band. *)
Definition convert_RGB (im : image rgba) : image rgb :=
  mk_image (width im) (height im) (map rgb_of (pixels im)).

(** [np.array(im)] *)
Definition np_array {A : Type} (im : image A) : ndarray A :=
  mk_array [height im; width im] (pixels im).

(** ** Floating-point arithmetic *)

(** The operations of numpy on float64 that [fallback_mask] reaches:
    conversion of an integer, the element-wise [subtract], [multiply], [add]
    and [true_divide], the square root, and the comparison [greater]. *)
Class Arithmetic : Type := {
  num : Type;
  of_int : Z -> num;
  subtract : num -> num -> num;
  multiply : num -> num -> num;
  add : num -> num -> num;
  true_divide : num -> num -> num;
  root : num -> num;
  greater : num -> num -> bool
}.

(** Conversion to binary64, exact below 2^53 in absolute value. *)
Definition float_of_int (z : Z) : PrimFloat.float :=
  if (z <? 0)%Z then PrimFloat.opp (PrimFloat.of_uint63 (Uint63.of_Z (- z)))
  else PrimFloat.of_uint63 (Uint63.of_Z z).

(** The arithmetic of the source. *)
Definition binary64 : Arithmetic := {|
  num := PrimFloat.float;
  of_int := float_of_int;
  subtract := PrimFloat.sub;
  multiply := PrimFloat.mul;
  add := PrimFloat.add;
  true_divide := PrimFloat.div;
  root := PrimFloat.sqrt;
  greater := fun x y => PrimFloat.ltb y x
|}.

(** The arithmetic of the real numbers. *)
Definition reals : Arithmetic := {|
  num := R;
  of_int := IZR;
  subtract := Rminus;
  multiply := Rmult;
  add := Rplus;
  true_divide := Rdiv;
  root := sqrt;
  greater := fun x y => if Rlt_dec y x then true else false
|}.

(** [x.astype('uint8')] of an integer. *)
Definition wrap8 (z : Z) : Z := (z mod 256)%Z.

(** ** fallback_mask *)

(** [margin = max(5, min(h, w) // 20)] *)
Definition margin (h w : nat) : Z :=
  Z.max 5 (Z.min (Z.of_nat h) (Z.of_nat w) / 20).

(** The concatenation of the four corner windows. *)
Definition corners (arr : ndarray rgb) : list rgb :=
  let '(h, w) := shape_hw arr in
  let margin := margin h w in
  slice2 black arr (Some 0%Z, Some margin) (Some 0%Z, Some margin)
  ++ slice2 black arr (Some 0%Z, Some margin) (Some (- margin)%Z, None)
  ++ slice2 black arr (Some (- margin)%Z, None) (Some 0%Z, Some margin)
  ++ slice2 black arr (Some (- margin)%Z, None) (Some (- margin)%Z, None).

(** The sum of one channel over N pixels: integers, added without rounding. *)
Definition channel_sum (ch : rgb -> Z) (l : list rgb) : Z :=
  fold_right (fun p acc => (ch p + acc)%Z) 0%Z l.

Section Fallback.
Context {A : Arithmetic}.

Definition color : Type := (num * num * num)%type.

(** [l.mean(axis=0)] of an N x 3 array: the sum of each column, divided by
    the number of rows.  numpy adds the bytes as float64; the partial sums are
    integers below 2^53, which float64 holds exactly, so the sum is converted
    once it is formed. *)
Definition mean_axis0 (l : list rgb) : color :=
  let n := of_int (Z.of_nat (length l)) in
  (true_divide (of_int (channel_sum red l)) n,
   true_divide (of_int (channel_sum green l)) n,
   true_divide (of_int (channel_sum blue l)) n).

Definition bg_color (arr : ndarray rgb) : color := mean_axis0 (corners arr).

(** [np.linalg.norm(arr - bg_color, axis=2)] at one pixel: the root of the
    sum, from left to right, of the squared differences. *)
Definition norm (p : rgb) (bg : color) : num :=
  let '(r, g, b) := p in
  let '(mr, mg, mb) := bg in
  let dr := subtract (of_int r) mr in
  let dg := subtract (of_int g) mg in
  let db := subtract (of_int b) mb in
  root (add (add (multiply dr dr) (multiply dg dg)) (multiply db db)).

(** [(diff > thresh).astype(np.uint8) * 255] *)
Definition compute_mask (arr : ndarray rgb) (bg : color) (thresh : num)
    : ndarray Z :=
  mk_array (shape arr)
    (map (fun p => wrap8 (wrap8 (Z.b2z (greater (norm p bg) thresh)) * 255))
         (buf arr)).

(** [thresh = 30.0] *)
Definition thresh : num := of_int 30.

Definition fallback_mask (pil_image : image rgba) : ndarray Z :=
  let arr := np_array (convert_RGB pil_image) in
  let bg_color := bg_color arr in
  compute_mask arr bg_color thresh.

End Fallback.

(** ** The model hook *)

(** An element of what a model returns, before the cast to uint8: an
    integer, a finite float, or one of inf, -inf and nan. *)
Inductive number : Type :=
| Int (z : Z)
| Float (q : Q)
| NotFinite.

(** Truncation toward zero. *)
Definition trunc (q : Q) : Z := Z.quot (Qnum q) (Zpos (Qden q)).

(** The integer part of an element. *)
Definition integer_part (v : number) : Z :=
  match v with
  | Int z => z
  | Float q => trunc q
  | NotFinite => 0%Z
  end.

(** The types [np.asarray] gives an array of numbers. *)
Inductive dtype : Type := int64 | uint64 | float64 | object.

(** The type of one element: an integer is an int64 when it fits, a uint64
    when that fits, and a Python object beyond 64 bits. *)
Definition discover (v : number) : dtype :=
  match v with
  | Int z =>
      if (- 2 ^ 63 <=? z)%Z && (z <? 2 ^ 63)%Z then int64
      else if (2 ^ 63 <=? z)%Z && (z <? 2 ^ 64)%Z then uint64
      else object
  | Float _ | NotFinite => float64
  end.

(** The common type of two: an object makes objects, a float makes floats,
    and signed and unsigned 64-bit integers meet in float64. *)
Definition promote (d d' : dtype) : dtype :=
  match d, d' with
  | object, _ | _, object => object
  | float64, _ | _, float64 => float64
  | int64, int64 => int64
  | uint64, uint64 => uint64
  | _, _ => float64
  end.

(** The type of the array; an array without elements is of float64. *)
Definition result_type (l : list number) : dtype :=
  match l with
  | [] => float64
  | v :: l' => fold_left promote (map discover l') (discover v)
  end.

(** The elements the shape of an array covers. *)
Definition elements {A : Type} (a : ndarray A) : list A :=
  firstn (size_of (shape a)) (buf a).

Definition int32 (z : Z) : bool := (- 2 ^ 31 <=? z)%Z && (z <? 2 ^ 31)%Z.

(** The cast of a float64 to uint8 is the cast of C, which is defined only
    where the integer part is a value of the target.  On x86-64 the
    conversion is the instruction cvttsd2si to 32 bits, of which the low byte
    is kept: an integer part within 32 bits is taken modulo 256, and beyond
    32 bits, as for inf and nan, the instruction returns the indefinite
    integer -2^31, whose low byte is 0. *)
Definition float64_to_uint8 (integer_part : option Z) : Z :=
  match integer_part with
  | Some t => if int32 t then wrap8 t else wrap8 (- 2 ^ 31)
  | None => wrap8 (- 2 ^ 31)
  end.

(** [x.astype('uint8')] of one element of an array of type [d].  The cast
    between integer types keeps the low byte; in an array of float64 an
    integer is the float next to it, whose integer part is within 32 bits
    exactly when the integer is. *)
Definition astype_uint8 (d : dtype) (v : number) : Z :=
  match d with
  | float64 =>
      match v with
      | Int z => float64_to_uint8 (Some z)
      | Float q => float64_to_uint8 (Some (trunc q))
      | NotFinite => float64_to_uint8 None
      end
  | _ => wrap8 (integer_part v)
  end.

(** What [predict] may return: an array, or an object with no numeric
    reading ([None], say), on which [astype] raises. *)
Inductive pyobj : Type :=
| PyNone
| PyArray (a : ndarray number).

(** [np.asarray(pred).astype('uint8')]: an array of objects holds an integer
    beyond 64 bits, which no cast to uint8 accepts. *)
Definition asarray_uint8 (pred : pyobj) : result (ndarray Z) :=
  match pred with
  | PyNone => raise TypeError
  | PyArray a =>
      match result_type (elements a) with
      | object => raise OverflowError
      | d => ret (mk_array (shape a) (map (astype_uint8 d) (buf a)))
      end
  end.

(** [a[..., 0]]: index 0 along the last axis, as a strided view. *)
Definition index_last0 {A : Type} (d : A) (a : ndarray A) : result (ndarray A) :=
  match rev (shape a) with
  | [] => raise IndexError
  | c :: outer =>
      if c =? 0 then raise IndexError
      else ret (mk_array (rev outer)
                  (map (fun k => nth (k * c + 0) (buf a) d)
                       (seq 0 (size_of (rev outer)))))
  end.

(** An unpickled object: with or without a [predict] attribute. *)
Inductive model : Type :=
| no_predict
| with_predict (predict : ndarray rgb -> result pyobj).

(** A file of MODEL_DIR: pickle.load raises on it, or yields an object. *)
Inductive pickle_file : Type :=
| corrupt
| pickled (m : model).

Definition directory : Type := string -> option pickle_file.

Definition load_pickle_model (MODEL_DIR : directory) (name : string)
    : result model :=
  match MODEL_DIR name with
  | None => raise FileNotFoundError
  | Some corrupt => raise RuntimeError
  | Some (pickled m) => ret m
  end.

(** ** Pillow: fromarray, GaussianBlur, putalpha *)

(** GaussianBlur(radius=1) is three passes of a box blur of radius 0.25 along
    each axis (libImaging/BoxBlur.c).  With integer radius 0 the accumulator
    of a line is the centre pixel; the two neighbours, the edge pixel repeated
    past the border, carry the fractional weight [fw].

    The weight [ww] of the centre pixel is 2^24 / (2 * 0.25 + 1) cast to an
    unsigned integer.  C forms the quotient in the precision of the build: in
    single precision it is rounded to 11184811, in a wider one it is
    11184810.67 and the cast gives 11184810.  The weight is therefore a field
    of the class [Pillow].

    The other field is the exception [Image.fromarray] raises for an array
    of more than two axes, which depends on the version: the versions that
    compare the number of axes with the two of the mode L raise ValueError
    (too many dimensions), and those that look the type of the array up
    first (13.0.0 is one) raise TypeError (cannot handle this data type). *)
Class Pillow : Type := { ww : Z; many_axes : exn }.

Definition single_precision : Pillow :=
  {| ww := 11184811; many_axes := ValueError_too_many_dimensions |}.
Definition wider_precision : Pillow :=
  {| ww := 11184810; many_axes := ValueError_too_many_dimensions |}.

(** The same build at a version that looks the type up first. *)
Definition type_first (P : Pillow) : Pillow :=
  {| ww := @ww P; many_axes := TypeError |}.

(** [Image.fromarray(a, mode='L')] *)
Definition fromarray_L {P : Pillow} (a : ndarray Z) : result (image Z) :=
  match shape a with
  | [] => raise IndexError
  | [n] => ret (mk_image 1 n (buf a))
  | [h; w] => ret (mk_image w h (buf a))
  | _ => raise many_axes
  end.

(** Any radius below one half gives a weight between 2^23 and 2^24. *)
Definition weight_in_range (P : Pillow) : Prop := (2 ^ 23 < ww <= 2 ^ 24)%Z.

Definition uint32 (z : Z) : Z := (z mod 2 ^ 32)%Z.

Section Blur.
Context {P : Pillow}.

Definition fw : Z := ((Z.shiftl 1 24 - (0 * 2 + 1) * ww) / 2)%Z.

Definition box_tap (acc left right : Z) : Z :=
  let bulk := uint32 (acc * ww + (left + right) * fw) in
  wrap8 (Z.shiftr (uint32 (bulk + Z.shiftl 1 23)) 24).

Definition horizontal_box_blur (im : image Z) : image Z :=
  mk_image (width im) (height im)
    (tabulate2 (height im) (width im) (fun y x =>
       box_tap (getpixel 0%Z im x y)
               (getpixel 0%Z im (x - 1) y)
               (getpixel 0%Z im (Nat.min (x + 1) (width im - 1)) y))).

Definition three_passes (im : image Z) : image Z :=
  horizontal_box_blur (horizontal_box_blur (horizontal_box_blur im)).

End Blur.

Definition transpose {A : Type} (d : A) (im : image A) : image A :=
  mk_image (height im) (width im)
    (tabulate2 (width im) (height im) (fun y x => getpixel d im y x)).

Definition gaussian_blur {P : Pillow} (im : image Z) : image Z :=
  transpose 0%Z (three_passes (transpose 0%Z (three_passes im))).

Definition set_alpha (pa : rgba * Z) : rgba :=
  let '((r, g, b, _), a) := pa in (r, g, b, a).

(** [pil.putalpha(alpha)]: band 3 of an RGBA image is replaced; a band of
    another size is refused (ImagingPutBand: images do not match). *)
Definition putalpha (pil : image rgba) (alpha : image Z) : result (image rgba) :=
  if (width alpha =? width pil) && (height alpha =? height pil)
  then ret (mk_image (width pil) (height pil)
              (map set_alpha (combine (pixels pil) (pixels alpha))))
  else raise ValueError_images_do_not_match.

(** ** apply_mask_and_save

    [convert('RGBA')] of an RGBA image is a copy of it; the result is the
    image that [save] writes. *)

Definition apply_mask_and_save {P : Pillow} (pil_image : image rgba)
    (mask_arr : ndarray Z) : result (image rgba) :=
  (let pil := pil_image in
   mask_img <- fromarray_L (mk_array (shape mask_arr) (map wrap8 (buf mask_arr))) ;;
   let mask_img := gaussian_blur mask_img in
   putalpha pil mask_img)%py.

(** ** process_local

    From [pil = Image.open(path).convert('RGBA')] on.  The two answers are
    the JSON with the URLs of the result, and the JSON with the error. *)

Inductive response : Type :=
| ok_200 (after : image rgba)
| error_500 (e : exn).

(** The body of the [try] block. *)
Definition model_mask (MODEL_DIR : directory) (model_name : string)
    (pil : image rgba) : result (ndarray Z) :=
  (model <- load_pickle_model MODEL_DIR model_name ;;
   let arr := np_array (convert_RGB pil) in
   match model with
   | with_predict predict =>
       pred <- predict arr ;;
       mask <- asarray_uint8 pred ;;
       if ndim mask =? 3 then index_last0 0%Z mask else ret mask
   | no_predict => raise RuntimeError
   end)%py.

Section Local.
Context {A : Arithmetic} {P : Pillow}.

Definition process_local (MODEL_DIR : directory) (model_name : string)
    (pil : image rgba) : response :=
  let mask :=
    try_except (model_mask MODEL_DIR model_name pil)
               (fun _ => fallback_mask pil) in
  match apply_mask_and_save pil mask with
  | inr after => ok_200 after
  | inl e => error_500 e
  end.

End Local.

(** ** The statements of the specification, in coordinates *)

(** The pixels of rows [r0, r1) and columns [c0, c1), row by row. *)
Definition window (arr : ndarray rgb) (r0 r1 c0 c1 : nat) : list rgb :=
  flat_map (fun i => map (fun j => item2 black arr i j) (seq c0 (c1 - c0)))
           (seq r0 (r1 - r0)).

(** The four corner squares of side [m] of an H x W image, each clamped to
    the image: top-left, top-right, bottom-left, bottom-right. *)
Definition corner_regions (arr : ndarray rgb) (H W m : nat) : list rgb :=
  window arr 0 (Nat.min m H) 0 (Nat.min m W)
  ++ window arr 0 (Nat.min m H) (W - m) W
  ++ window arr (H - m) H 0 (Nat.min m W)
  ++ window arr (H - m) H (W - m) W.

(** The Euclidean distance in RGB space between a pixel and a colour. *)
Definition distance (p : rgb) (bg : R * R * R) : R :=
  let '(r, g, b) := p in
  let '(mr, mg, mb) := bg in
  sqrt ((IZR r - mr) * (IZR r - mr)
        + (IZR g - mg) * (IZR g - mg)
        + (IZR b - mb) * (IZR b - mb))%R.

Definition color_of {A : Arithmetic} (p : rgb) : color :=
  (of_int (red p), of_int (green p), of_int (blue p)).

Definition binary01 (v : Z) : Prop := v = 0%Z \/ v = 1%Z.

(** An integer of 64 bits with its sign. *)
Definition is_int64 (v : number) : Prop :=
  match v with
  | Int z => (- 2 ^ 63 <= z < 2 ^ 63)%Z
  | Float _ | NotFinite => False
  end.

(** A float, or an integer of 64 bits with its sign. *)
Definition fits_int64 (v : number) : Prop :=
  match v with
  | Int z => (- 2 ^ 63 <= z < 2 ^ 63)%Z
  | Float _ | NotFinite => True
  end.

(** An integer that no integer type of 64 bits holds. *)
Definition beyond_64_bits (v : number) : Prop :=
  match v with
  | Int z => (z < - 2 ^ 63 \/ 2 ^ 64 <= z)%Z
  | Float _ | NotFinite => False
  end.

(** A finite element whose integer part is a signed integer of 32 bits. *)
Definition within_int32 (v : number) : Prop :=
  match v with
  | Int z => (- 2 ^ 31 <= z < 2 ^ 31)%Z
  | Float q => (- 2 ^ 31 <= trunc q < 2 ^ 31)%Z
  | NotFinite => False
  end.

(** ** Laws of an arithmetic on bytes *)

(** What the arithmetic must grant for a uniform image: the difference of a
    byte with itself is zero, zero squared, added and rooted is zero, and
    zero is not greater than a positive number. *)
Record zero_laws (A : Arithmetic) : Prop := {
  subtract_self : forall c, (0 <= c <= 255)%Z ->
    subtract (of_int c) (of_int c) = of_int 0;
  multiply_zero : multiply (of_int 0) (of_int 0) = of_int 0;
  add_zero : add (of_int 0) (of_int 0) = of_int 0;
  root_zero : root (of_int 0) = of_int 0;
  greater_zero : forall t,
    greater t (of_int 0) = true -> greater (of_int 0) t = false
}.

(** The mean of [n] equal bytes is that byte. *)
Definition exact_mean (A : Arithmetic) (n : Z) : Prop :=
  forall c, (0 <= c <= 255)%Z ->
    true_divide (of_int (n * c)) (of_int n) = of_int c.

(** The bytes. *)
Definition bytes : list Z := map Z.of_nat (seq 0 256).

(** The numbers of corner samples of the images whose smaller side is below
    20 * 1000: 4ab with a, b <= 5 where the margin is 5, and 4m^2 beyond. *)
Definition sample_counts : list Z :=
  (flat_map (fun a => map (fun b => 4 * (Z.of_nat a * Z.of_nat b)) (seq 1 5)) (seq 1 5)
   ++ map (fun m => 4 * (Z.of_nat m * Z.of_nat m)) (seq 5 995))%Z.

Definition divides_exactly (n : Z) : bool :=
  forallb (fun c =>
    PrimFloat.Leibniz.eqb
      (PrimFloat.div (float_of_int (n * c)) (float_of_int n))
      (float_of_int c)) bytes.

(** The squares of the differences of two bytes, each with its float. *)
Definition squares : list (Z * PrimFloat.float) :=
  map (fun d => let s := (Z.of_nat d * Z.of_nat d)%Z in (s, float_of_int s))
      (seq 0 256).

(** The difference of two bytes is formed without rounding. *)
Definition difference_exact (p m : Z) : bool :=
  PrimFloat.Leibniz.eqb (PrimFloat.sub (float_of_int p) (float_of_int m))
                        (float_of_int (p - m)).

(** So is the square of such a difference, whatever its sign. *)
Definition square_exact (d : Z) : bool :=
  PrimFloat.Leibniz.eqb (PrimFloat.mul (float_of_int d) (float_of_int d))
                        (float_of_int (d * d))
  && PrimFloat.Leibniz.eqb (PrimFloat.mul (float_of_int (- d)) (float_of_int (- d)))
                           (float_of_int (d * d)).

(** The sum of two squares, and its float. *)
Definition add_squares (x y : Z * PrimFloat.float) : Z * PrimFloat.float :=
  ((fst x + fst y)%Z, PrimFloat.add (snd x) (snd y)).

(** The root of the sum of three such squares, added from left to right,
    exceeds 30 exactly when the sum exceeds 900. *)
Definition threshold_exact (s z : Z * PrimFloat.float) : bool :=
  Bool.eqb (PrimFloat.ltb (float_of_int 30)
              (PrimFloat.sqrt (PrimFloat.add (snd s) (snd z))))
           (900 <? fst s + fst z)%Z.

Definition forallb2 {A B : Type} (f : A -> B -> bool) (la : list A) (lb : list B) : bool :=
  forallb (fun a => forallb (f a) lb) la.

Definition forallb3 {A B : Type} (pre : A -> A -> B) (f : B -> A -> bool)
    (l : list A) : bool :=
  forallb (fun a => forallb (fun b => let p := pre a b in forallb (f p) l) l) l.

(** ** Sample inputs *)

(** A 3 x 2 image with one red pixel at the start of the second row. *)
Definition sample_image : image rgba :=
  mk_image 3 2
    [(10, 20, 30, 255); (10, 20, 30, 255); (10, 20, 30, 255);
     (200, 20, 30, 255); (10, 20, 30, 255); (10, 20, 30, 255)]%Z.

(** A 3 x 1 image whose first pixel is at the distance 30 from the mean of
    the three. *)
Definition threshold_image : image rgba :=
  mk_image 3 1 [(22, 44, 82, 255); (14, 0, 77, 255); (14, 0, 77, 255)]%Z.

(** The floats next to 50/3, 44/3 and 236/3, as quotients by powers of two,
    which every arithmetic forms without rounding. *)
Definition rounded_mean {A : Arithmetic} : color :=
  (true_divide (of_int 4691249611844267) (of_int 281474976710656),
   true_divide (of_int 8256599316845909) (of_int 562949953421312),
   true_divide (of_int 5535674541976235) (of_int 70368744177664)).

(** A 3 x 2 image of one colour. *)
Definition uniform_image : image rgba :=
  mk_image 3 2 (repeat (128, 128, 128, 255)%Z 6).

(** A 100 x 100 image of gray value 128. *)
Definition gray_image : image rgba :=
  mk_image 100 100 (repeat (128, 128, 128, 255)%Z (100 * 100)).

Definition in_square (i j : nat) : bool :=
  (40 <=? i) && (i <? 60) && (40 <=? j) && (j <? 60).

(** A 100 x 100 white image with a black square of side 20 in the centre. *)
Definition square_image : image rgba :=
  mk_image 100 100
    (tabulate2 100 100 (fun i j =>
       if in_square i j then (0, 0, 0, 255)%Z else (255, 255, 255, 255)%Z)).

Definition no_models : directory := fun _ => None.

(** A model whose output has two channels per pixel. *)
Definition two_channel_model : model :=
  with_predict (fun arr =>
    ret (PyArray (mk_array (shape arr ++ [2])
           (flat_map (fun p => [Int (red p); Int 7%Z]) (buf arr))))).

(** A model that marks the foreground with ones. *)
Definition zero_one_model : model :=
  with_predict (fun arr =>
    ret (PyArray (mk_array (shape arr)
           (map (fun p => Int (if (red p <? 100)%Z then 0 else 1)) (buf arr))))).

(** A model whose output is the float 2^31 + 5 at every pixel. *)
Definition large_float_model : model :=
  with_predict (fun arr =>
    ret (PyArray (mk_array (shape arr)
           (map (fun _ => Float (inject_Z 2147483653)) (buf arr))))).

(** A model whose output is the integer 2^64 + 5 at every pixel. *)
Definition huge_integer_model : model :=
  with_predict (fun arr =>
    ret (PyArray (mk_array (shape arr)
           (map (fun _ => Int (2 ^ 64 + 5)) (buf arr))))).

(** A model whose output has four axes. *)
Definition four_axes_model : model :=
  with_predict (fun _ =>
    ret (PyArray (mk_array [2; 3; 1; 1] (repeat (Int 255) 6)))).

Definition models_with (m : model) : directory :=
  fun name => if String.eqb name "segmenter.pkl" then Some (pickled m) else None.

(** ** Strings

    A Python [str] is the list of its characters. *)

Definition str : Type := list ascii.

Definition chars (s : string) : str := list_ascii_of_string s.

Definition str_eqb (a b : str) : bool :=
  if list_eq_dec ascii_dec a b then true else false.

Definition between_chars (lo hi c : ascii) : bool :=
  (nat_of_ascii lo <=? nat_of_ascii c) && (nat_of_ascii c <=? nat_of_ascii hi).

Definition is_upper (c : ascii) : bool := between_chars "A" "Z" c.
Definition is_lower (c : ascii) : bool := between_chars "a" "z" c.
Definition is_digit (c : ascii) : bool := between_chars "0" "9" c.

(** [s.lower()] *)
Definition lower_char (c : ascii) : ascii :=
  if is_upper c then ascii_of_nat (nat_of_ascii c + 32) else c.

Definition lower (s : str) : str := map lower_char s.

(** [c in s] *)
Definition contains (c : ascii) (s : str) : bool := existsb (Ascii.eqb c) s.

(** [x in s] for a set of strings. *)
Definition in_set (x : str) (s : list str) : bool := existsb (str_eqb x) s.

(** [s.rsplit(sep, 1)]: the text before the last separator and the text
    after it, or the text alone when it holds no separator. *)
Fixpoint rsplit1 (sep : ascii) (s : str) : list str :=
  match s with
  | [] => [[]]
  | c :: s' =>
      match rsplit1 sep s' with
      | [h; t] => [c :: h; t]
      | _ => if Ascii.eqb c sep then [[]; s'] else [c :: s']
      end
  end.

(** [l[i]] *)
Definition item {A : Type} (l : list A) (i : nat) : result A :=
  match nth_error l i with
  | Some x => ret x
  | None => raise IndexError
  end.

(** The white space of [s.split()] below 128: tab to carriage return, the
    four separators 28 to 31, and the space. *)
Definition is_space (c : ascii) : bool :=
  let n := nat_of_ascii c in
  ((9 <=? n) && (n <=? 13)) || ((28 <=? n) && (n <=? 32)).

(** [s.split()]; [word] is the word being read, last character first. *)
Fixpoint split_from (word : str) (s : str) : list str :=
  match s with
  | [] => match word with [] => [] | _ => [rev word] end
  | c :: s' =>
      if is_space c
      then match word with
           | [] => split_from [] s'
           | _ => rev word :: split_from [] s'
           end
      else split_from (c :: word) s'
  end.

Definition split (s : str) : list str := split_from [] s.

(** [sep.join(l)] *)
Fixpoint join (sep : str) (l : list str) : str :=
  match l with
  | [] => []
  | [x] => x
  | x :: l' => x ++ sep ++ join sep l'
  end.

(** [s.replace(a, b)] for single characters. *)
Definition replace (a b : ascii) (s : str) : str :=
  map (fun c => if Ascii.eqb c a then b else c) s.

Fixpoint lstrip (set : str) (s : str) : str :=
  match s with
  | [] => []
  | c :: s' => if contains c set then lstrip set s' else s
  end.

Definition rstrip (set : str) (s : str) : str := rev (lstrip set (rev s)).

(** [s.strip(set)] *)
Definition strip (set : str) (s : str) : str := rstrip set (lstrip set s).

Definition is_letter (c : ascii) : bool := is_upper c || is_lower c.

(** ** allowed_file *)

Definition ALLOWED_EXT : list str :=
  [chars "png"; chars "jpg"; chars "jpeg"; chars "webp"].

(** [and] evaluates the index only when the name holds a dot. *)
Definition allowed_file (filename : str) : result bool :=
  if contains "." filename
  then (ext <- item (rsplit1 "." filename) 1 ;;
        ret (in_set (lower ext) ALLOWED_EXT))%py
  else ret false.

(** ** werkzeug: secure_filename

    On a POSIX system and for a name of ASCII characters, on which the
    NFKD normalisation and the ASCII encoding change nothing: the path
    separator becomes a space, the words are joined by underscores, what is
    not a letter, a digit, an underscore, a dot or a hyphen is removed, and
    the dots and underscores at both ends are stripped. *)

Definition is_ascii (c : ascii) : bool := nat_of_ascii c <? 128.

(** The complement of the class [[^A-Za-z0-9_.-]]. *)
Definition kept (c : ascii) : bool :=
  is_upper c || is_lower c || is_digit c
  || Ascii.eqb c "_" || Ascii.eqb c "." || Ascii.eqb c "-".

Definition secure_filename (filename : str) : str :=
  let filename := replace "/" " " filename in
  strip (chars "._") (filter kept (join (chars "_") (split filename))).

(** ** The folders and save_upload *)

Definition octets : Type := list Byte.byte.

(** What a file holds: bytes as they were received, or the PNG encoding of
    an image. *)
Inductive file_content : Type :=
| Octets (data : octets)
| PNG (im : image rgba).

(** A folder: the files by name. *)
Definition folder : Type := list (str * file_content).

Definition lookup (name : str) (d : folder) : option file_content :=
  match find (fun e => str_eqb (fst e) name) d with
  | Some e => Some (snd e)
  | None => None
  end.

(** Writing creates the file or replaces it. *)
Definition write (name : str) (c : file_content) (d : folder) : folder :=
  (name, c) :: filter (fun e => negb (str_eqb (fst e) name)) d.

(** werkzeug's FileStorage: the name the client sent, and the bytes. *)
Record file_storage : Type := mk_file { filename : str; stream : octets }.

(** [hex] is [uuid.uuid4().hex]. *)
Definition save_upload (hex : str) (file_storage : file_storage)
    (UPLOAD_DIR : folder) : result (str * folder) :=
  (let filename := secure_filename (filename file_storage) in
   ext <- item (rsplit1 "." filename) 1 ;;
   let ext := lower ext in
   let uid := hex ++ "."%char :: ext in
   ret (uid, write uid (Octets (stream file_storage)) UPLOAD_DIR))%py.

(** A character that survives [secure_filename] wherever it stands. *)
Definition solid (c : ascii) : bool :=
  is_upper c || is_lower c || is_digit c || Ascii.eqb c "-".

(** The characters of a stored extension. *)
Definition plain (c : ascii) : bool :=
  is_lower c || is_digit c || Ascii.eqb c "_" || Ascii.eqb c "-".

(** ** cleanup_old_files *)

(** A path of a folder as [iterdir] yields it: the time of its last
    modification, in microseconds, that [stat] returns unless it raises, and
    what [unlink] would do. *)
Record entry : Type := mk_entry {
  path : str;
  st_mtime : result Z;
  unlink : result unit
}.

(** [timedelta(hours=hours)], in microseconds. *)
Definition timedelta (hours : Z) : Z := (hours * 3600 * 1000000)%Z.

(** The body of the loop; the answer tells whether the path is gone. *)
Definition cleanup_step (cutoff : Z) (p : entry) : bool :=
  try_except
    (mtime <- st_mtime p ;;
     if (mtime <? cutoff)%Z
     then (_ <- unlink p ;; ret true)
     else ret false)%py
    (fun _ => false).

(** The two folders after the loop; [utcnow] is [datetime.utcnow()]. *)
Definition cleanup_old_files (utcnow hours : Z)
    (folders : list entry * list entry) : list entry * list entry :=
  let cutoff := (utcnow - timedelta hours)%Z in
  (filter (fun p => negb (cleanup_step cutoff p)) (fst folders),
   filter (fun p => negb (cleanup_step cutoff p)) (snd folders)).

(** ** call_provider *)

(** What [requests.post] does: it raises, or it returns a response. *)
Inductive http_outcome : Type :=
| http_raises (e : exn)
| http_response (status_code : Z) (content : octets).

(** A request sent: the URL, the Authorization header and the image. *)
Record http_call : Type := mk_call {
  url : string;
  authorization : string;
  image_file : octets
}.

(** [not content] *)
Definition is_empty (content : octets) : bool :=
  match content with
  | [] => true
  | _ => false
  end.

Definition provider_map (provider_name : string) : option string :=
  if String.eqb provider_name "remove.bg" then Some "REMOVE_BG_API_KEY"%string
  else if String.eqb provider_name "clipdrop" then Some "CLIPDROP_API_KEY"%string
  else if String.eqb provider_name "photoroom" then Some "PHOTOROOM_API_KEY"%string
  else None.

Section Provider.

(** [os.environ], [requests.post] with its timeout, and the copy of the
    image with a text drawn on it, which raises when the bytes are not an
    image. *)
Variable environ : string -> option string.
Variable post : http_call -> http_outcome.
Variable watermark : string -> octets -> result octets.

(** The answer, and the requests sent on the way. *)
Definition call_provider (provider_name : string) (image_bytes : octets)
    : result octets * list http_call :=
  let env_var := provider_map provider_name in
  let api_key := match env_var with Some v => environ v | None => None end in
  match api_key with
  | None | Some EmptyString => (watermark "API KEY MISSING" image_bytes, [])
  | Some api_key =>
      let sent :=
        mk_call ("https://api.example.com/" ++ provider_name ++ "/remove")
                ("Bearer " ++ api_key) image_bytes in
      match post sent with
      | http_response 200 (b :: content) => (ret (b :: content), [sent])
      | _ => (watermark "API ERROR" image_bytes, [sent])
      end
  end.

End Provider.

(** The key of a provider: the variable of [provider_map], when it is set
    and not empty. *)
Definition usable_key (environ : string -> option string)
    (provider_name : string) : option string :=
  match provider_map provider_name with
  | Some v => match environ v with
              | Some EmptyString => None
              | k => k
              end
  | None => None
  end.

(** The names [provider_map] knows. *)
Definition providers : list string := ["remove.bg"; "clipdrop"; "photoroom"]%string.

(** ** The views *)

Record disk : Type := mk_disk { UPLOAD_DIR : folder; RESULT_DIR : folder }.

(** The part named image of [request.files], and [request.form]. *)
Record request : Type := mk_request {
  files_image : option file_storage;
  form : string -> option string
}.

Inductive reply : Type :=
| json_400 (error : string)
| json_500 (e : exn)
| json_200 (before after : str).

(** [request.form.get(key, default)] *)
Definition form_get (req : request) (key default : string) : string :=
  match form req key with
  | Some v => v
  | None => default
  end.

(** [file.filename == '' or not allowed_file(file.filename)] *)
Definition invalid_file (file : file_storage) : result bool :=
  match filename file with
  | [] => ret true
  | _ => (ok <- allowed_file (filename file) ;; ret (negb ok))%py
  end.

(** [open(path, 'rb').read()] *)
Definition read (name : str) (d : folder) : result octets :=
  match lookup name d with
  | Some (Octets data) => ret data
  | Some (PNG _) => raise TypeError
  | None => raise FileNotFoundError
  end.

Definition static (dir : string) (name : str) : str := chars dir ++ name.

Section Views.
Context {A : Arithmetic} {P : Pillow}.

(** Pillow's decoders: [Image.open(...).convert('RGBA')] of the bytes. *)
Variable decode : octets -> result (image rgba).
Variable MODEL_DIR : directory.
Variable environ : string -> option string.
Variable post : http_call -> http_outcome.
Variable watermark : string -> octets -> result octets.

(** A view answers with a reply or lets an exception escape; either way it
    leaves a disk.  [hex] and [hex'] are the two random names. *)
Definition process_local_view (hex hex' : str) (req : request) (d : disk)
    : result reply * disk :=
  match files_image req with
  | None => (ret (json_400 "No image uploaded"), d)
  | Some file =>
      let model_name := form_get req "model" "segmenter.pkl" in
      match invalid_file file with
      | inl e => (raise e, d)
      | inr true => (ret (json_400 "Invalid file"), d)
      | inr false =>
          match save_upload hex file (UPLOAD_DIR d) with
          | inl e => (raise e, d)
          | inr (uid, uploads) =>
              let d := mk_disk uploads (RESULT_DIR d) in
              match bind (read uid uploads) decode with
              | inl e => (raise e, d)
              | inr pil =>
                  let out_uid := hex' ++ chars ".png" in
                  match process_local MODEL_DIR model_name pil with
                  | ok_200 after =>
                      (ret (json_200 (static "/static/uploads/" uid)
                                     (static "/static/results/" out_uid)),
                       mk_disk uploads (write out_uid (PNG after) (RESULT_DIR d)))
                  | error_500 e => (ret (json_500 e), d)
                  end
              end
          end
      end
  end.

Definition process_api_view (hex hex' : str) (req : request) (d : disk)
    : result reply * disk * list http_call :=
  match files_image req with
  | None => (ret (json_400 "No image uploaded"), d, [])
  | Some file =>
      let provider := form_get req "provider" "remove.bg" in
      match invalid_file file with
      | inl e => (raise e, d, [])
      | inr true => (ret (json_400 "Invalid file"), d, [])
      | inr false =>
          match save_upload hex file (UPLOAD_DIR d) with
          | inl e => (raise e, d, [])
          | inr (uid, uploads) =>
              let d := mk_disk uploads (RESULT_DIR d) in
              match read uid uploads with
              | inl e => (raise e, d, [])
              | inr data =>
                  let out_uid := hex' ++ chars ".png" in
                  match call_provider environ post watermark provider data with
                  | (inr out_bytes, sent) =>
                      (ret (json_200 (static "/static/uploads/" uid)
                                     (static "/static/results/" out_uid)),
                       mk_disk uploads
                         (write out_uid (Octets out_bytes) (RESULT_DIR d)),
                       sent)
                  | (inl e, sent) => (ret (json_500 e), d, sent)
                  end
              end
          end
      end
  end.

End Views.

(** ** scripts/create_dummy_pickles.py

    pickle writes an instance of a class as the name of the module that
    defines the class and the name of the class in that module; to load the
    instance it imports the module and looks the name up, and raises when
    the module does not have it.  The script runs as the module [__main__]
    and pickles an instance of its class DummySegmenter. *)

Record pickled_instance : Type := mk_instance {
  class_module : string;
  class_name : string
}.

(** models/segmenter.pkl as the script writes it. *)
Definition segmenter_pkl : pickled_instance :=
  mk_instance "__main__" "DummySegmenter".

(** The modules of the process that loads: what each name of a module is
    as a model, when the module has the name. *)
Definition modules : Type := string -> string -> option model.

(** [pickle.load] of the file. *)
Definition unpickle (sys_modules : modules) (f : pickled_instance)
    : pickle_file :=
  match sys_modules (class_module f) (class_name f) with
  | Some m => pickled m
  | None => corrupt
  end.

(** The names app.py binds at its top level. *)
Definition app_names : list string :=
  ["os"; "io"; "uuid"; "pickle"; "pathlib"; "datetime"; "timedelta";
   "Flask"; "render_template"; "request"; "jsonify"; "secure_filename";
   "Image"; "ImageFilter"; "ImageDraw"; "ImageFont"; "np"; "requests";
   "BASE_DIR"; "UPLOAD_DIR"; "RESULT_DIR"; "MODEL_DIR"; "d"; "ALLOWED_EXT";
   "app"; "allowed_file"; "save_upload"; "cleanup_old_files";
   "call_provider"; "load_pickle_model"; "fallback_mask";
   "apply_mask_and_save"; "index"; "process_api"; "process_local"]%string.

(** ** Ranges and shapes *)

Definition between (lo hi v : Z) : Prop := (lo <= v <= hi)%Z.

(** The masks the compositor accepts for an image: those of its height and
    width, and for an image one pixel wide those of one axis. *)
Definition fits (pil : image rgba) (mask : ndarray Z) : Prop :=
  shape mask = [height pil; width pil]
  \/ (shape mask = [height pil] /\ width pil = 1).

(** * Lists and arrays *)

Section Tabulate.
Context {A : Type}.

Lemma length_tabulate2 h w (f : nat -> nat -> A) :
  length (tabulate2 h w f) = h * w.
Proof. unfold tabulate2. now rewrite length_map, length_seq. Qed.

Lemma nth_map_seq (g : nat -> A) n k d :
  k < n -> nth k (map g (seq 0 n)) d = g k.
Proof.
  intros Hk.
  rewrite (nth_indep _ d (g 0)) by now rewrite length_map, length_seq.
  rewrite map_nth, seq_nth; auto.
Qed.

Lemma flat_index_lt h w i j : i < h -> j < w -> i * w + j < h * w.
Proof. nia. Qed.

Lemma nth_tabulate2 h w (f : nat -> nat -> A) i j d :
  i < h -> j < w -> nth (i * w + j) (tabulate2 h w f) d = f i j.
Proof.
  intros Hi Hj. unfold tabulate2.
  rewrite nth_map_seq by now apply flat_index_lt.
  rewrite Nat.div_add_l, Nat.div_small, Nat.add_0_r by lia.
  rewrite Nat.add_comm, Nat.Div0.mod_add, Nat.mod_small by lia.
  reflexivity.
Qed.

(** A table whose entries are those of [l] is [l]. *)
Lemma tabulate2_nth h w (f : nat -> nat -> A) l d :
  length l = h * w ->
  (forall i j, i < h -> j < w -> f i j = nth (i * w + j) l d) ->
  tabulate2 h w f = l.
Proof.
  intros Hl Hf. apply (nth_ext _ _ d d).
  - now rewrite length_tabulate2.
  - rewrite length_tabulate2. intros k Hk.
    assert (Hw : w <> 0) by (intros ->; lia).
    unfold tabulate2. rewrite nth_map_seq by assumption.
    rewrite Hf.
    + f_equal. rewrite (Nat.div_mod_eq k w) at 3. lia.
    + apply Nat.Div0.div_lt_upper_bound. lia.
    + now apply Nat.mod_upper_bound.
Qed.

Lemma nth_repeat_lt (a d : A) n k : k < n -> nth k (repeat a n) d = a.
Proof.
  intros Hk. rewrite (nth_indep _ d a) by now rewrite repeat_length.
  apply nth_repeat.
Qed.

Lemma tabulate2_const h w (f : nat -> nat -> A) c :
  (forall i j, i < h -> j < w -> f i j = c) ->
  tabulate2 h w f = repeat c (h * w).
Proof.
  intros Hf. apply tabulate2_nth with (d := c).
  - apply repeat_length.
  - intros i j Hi Hj. rewrite nth_repeat_lt by now apply flat_index_lt.
    now apply Hf.
Qed.

Lemma Forall_tabulate2 (P : A -> Prop) h w (f : nat -> nat -> A) :
  (forall i j, i < h -> j < w -> P (f i j)) -> Forall P (tabulate2 h w f).
Proof.
  intros Hf. unfold tabulate2. apply Forall_forall. intros x Hx.
  apply in_map_iff in Hx. destruct Hx as [k [<- Hk]].
  apply in_seq in Hk.
  assert (Hw : w <> 0) by (intros ->; lia).
  apply Hf.
  - apply Nat.Div0.div_lt_upper_bound. lia.
  - now apply Nat.mod_upper_bound.
Qed.

End Tabulate.

(** * The Background Estimator *)

Lemma margin_nat H W :
  margin H W = Z.of_nat (Nat.max 5 (Nat.min H W / 20)).
Proof.
  unfold margin.
  rewrite Nat2Z.inj_max, Nat2Z.inj_div, Nat2Z.inj_min. reflexivity.
Qed.

(** [0:m] on an axis of length [n] is [0, min m n). *)
Lemma range_head m n :
  range (adjust_index (Z.of_nat n) 0) (adjust_index (Z.of_nat n) (Z.of_nat m))
  = seq 0 (Nat.min m n - 0).
Proof.
  unfold adjust_index, range.
  destruct (Z.ltb_spec (Z.of_nat m) 0); [lia|].
  change (0 <? 0)%Z with false. cbv iota.
  f_equal; lia.
Qed.

(** [-m:] on an axis of length [n] is [n - m, n), from 0 when [m > n]. *)
Lemma range_tail m n :
  0 < m ->
  range (adjust_index (Z.of_nat n) (- Z.of_nat m)) (Z.of_nat n)
  = seq (n - m) (n - (n - m)).
Proof.
  intros Hm. unfold adjust_index, range.
  destruct (Z.ltb_spec (- Z.of_nat m) 0); [|lia].
  f_equal; lia.
Qed.

Lemma slice2_window (arr : ndarray rgb) H W rows cols :
  shape arr = [H; W] ->
  let rb := slice_bounds (fst rows) (snd rows) (Z.of_nat H) in
  let cb := slice_bounds (fst cols) (snd cols) (Z.of_nat W) in
  slice2 black arr rows cols =
  flat_map (fun i => map (fun j => item2 black arr i j) (range (fst cb) (snd cb)))
           (range (fst rb) (snd rb)).
Proof.
  intros Hs. unfold slice2, shape_hw. rewrite Hs.
  destruct (slice_bounds (fst rows) (snd rows) (Z.of_nat H)).
  destruct (slice_bounds (fst cols) (snd cols) (Z.of_nat W)).
  reflexivity.
Qed.

Lemma corners_regions (arr : ndarray rgb) H W :
  shape arr = [H; W] ->
  corners arr = corner_regions arr H W (Nat.max 5 (Nat.min H W / 20)).
Proof.
  intros Hs. unfold corners. unfold shape_hw at 1. rewrite Hs.
  rewrite margin_nat. set (m := Nat.max 5 (Nat.min H W / 20)).
  assert (Hm : 0 < m) by (unfold m; lia).
  rewrite !(slice2_window arr H W _ _ Hs). unfold slice_bounds. cbn [fst snd].
  rewrite !range_head, !(range_tail m _ Hm).
  reflexivity.
Qed.

Lemma length_flat_map_map {A B C : Type} (g : A -> B -> C)
    (rows : list A) (cols : list B) :
  length (flat_map (fun i => map (g i) cols) rows) = length rows * length cols.
Proof.
  induction rows as [|i rows IH]; simpl; [reflexivity|].
  now rewrite length_app, length_map, IH.
Qed.

Lemma length_window arr r0 r1 c0 c1 :
  length (window arr r0 r1 c0 c1) = (r1 - r0) * (c1 - c0).
Proof.
  unfold window.
  now rewrite (length_flat_map_map (item2 black arr)), !length_seq.
Qed.

Lemma length_corner_regions arr H W m :
  length (corner_regions arr H W m) = 4 * (Nat.min m H * Nat.min m W).
Proof.
  unfold corner_regions. rewrite !length_app, !length_window. nia.
Qed.

Lemma length_corners arr H W :
  shape arr = [H; W] ->
  let m := Nat.max 5 (Nat.min H W / 20) in
  length (corners arr) = 4 * (Nat.min m H * Nat.min m W).
Proof.
  intros Hs m. rewrite (corners_regions arr H W Hs). apply length_corner_regions.
Qed.

Lemma Forall_window (P : rgb -> Prop) arr H W r0 r1 c0 c1 :
  shape arr = [H; W] -> wf_array arr -> Forall P (buf arr) ->
  r1 <= H -> c1 <= W ->
  Forall P (window arr r0 r1 c0 c1).
Proof.
  intros Hs Hwf HP Hr Hc. unfold window.
  apply Forall_flat_map, Forall_forall. intros i Hi. apply in_seq in Hi.
  apply Forall_map, Forall_forall. intros j Hj. apply in_seq in Hj.
  unfold item2, shape_hw. rewrite Hs. cbn [snd].
  apply Forall_nth; [assumption|].
  unfold wf_array in Hwf. rewrite Hwf, Hs. simpl. nia.
Qed.

(** The samples are pixels of the image. *)
Lemma Forall_corner_regions (P : rgb -> Prop) arr H W m :
  shape arr = [H; W] -> wf_array arr -> Forall P (buf arr) ->
  Forall P (corner_regions arr H W m).
Proof.
  intros Hs Hwf HP. unfold corner_regions.
  repeat (apply Forall_app; split);
    (eapply Forall_window; eauto; lia).
Qed.

Lemma channel_sum_uniform ch c l :
  Forall (eq c) l -> channel_sum ch l = (Z.of_nat (length l) * ch c)%Z.
Proof.
  induction 1 as [|p l Hp _ IH]; [reflexivity|].
  subst p. cbn [channel_sum fold_right length].
  fold (channel_sum ch l). rewrite IH. lia.
Qed.

(** * The Mask Synthesizer *)

Lemma cast_times_255 (b : bool) :
  wrap8 (wrap8 (Z.b2z b) * 255) = if b then 255%Z else 0%Z.
Proof. now destruct b. Qed.

Section Mask.
Context {A : Arithmetic}.

Lemma shape_compute_mask arr (bg : color) t :
  shape (compute_mask arr bg t) = shape arr.
Proof. reflexivity. Qed.

Lemma wf_compute_mask arr (bg : color) t :
  wf_array arr -> wf_array (compute_mask arr bg t).
Proof. unfold wf_array, compute_mask. simpl. now rewrite length_map. Qed.

Lemma binary_compute_mask arr (bg : color) t :
  Forall (fun v => v = 0%Z \/ v = 255%Z) (buf (compute_mask arr bg t)).
Proof.
  unfold compute_mask. simpl. apply Forall_map, Forall_forall. intros p _.
  rewrite cast_times_255. destruct (greater _ _); auto.
Qed.

(** The mask at a pixel is decided by the pixel at the same place. *)
Lemma item2_compute_mask arr (bg : color) t H W i j :
  shape arr = [H; W] -> wf_array arr -> i < H -> j < W ->
  item2 0%Z (compute_mask arr bg t) i j =
  if greater (norm (item2 black arr i j) bg) t then 255%Z else 0%Z.
Proof.
  intros Hs Hwf Hi Hj. unfold item2, shape_hw.
  rewrite shape_compute_mask, Hs. cbn [snd]. unfold compute_mask. cbn [buf].
  rewrite <- cast_times_255.
  rewrite (nth_indep _ 0%Z
             (wrap8 (wrap8 (Z.b2z (greater (norm black bg) t)) * 255))).
  - exact (map_nth (fun p => wrap8 (wrap8 (Z.b2z (greater (norm p bg) t)) * 255))
                   (buf arr) black (i * W + j)).
  - rewrite length_map. unfold wf_array in Hwf. rewrite Hwf, Hs. simpl. nia.
Qed.

Lemma shape_fallback_mask pil :
  shape (fallback_mask pil) = [height pil; width pil].
Proof. reflexivity. Qed.

End Mask.

Lemma wf_np_array_RGB pil :
  wf_image pil -> wf_array (np_array (convert_RGB pil)).
Proof.
  unfold wf_image, wf_array.
  cbn [np_array convert_RGB buf shape pixels height width size_of fold_right].
  rewrite length_map. lia.
Qed.

Lemma wf_fallback_mask {A : Arithmetic} pil :
  wf_image pil -> wf_array (fallback_mask pil).
Proof. intros H. now apply wf_compute_mask, wf_np_array_RGB. Qed.

(** ** Uniform images *)

Section Uniform.
Context {A : Arithmetic}.
Hypothesis laws : zero_laws A.

Lemma norm_self c : uint8 c -> norm c (color_of c) = of_int 0.
Proof.
  destruct c as [[r g] b]. unfold uint8, norm, color_of, red, green, blue.
  cbn [fst snd]. intros (Hr & Hg & Hb).
  rewrite !(subtract_self A laws) by assumption.
  now rewrite !(multiply_zero A laws), !(add_zero A laws), (root_zero A laws).
Qed.

Lemma mean_axis0_uniform c l :
  uint8 c -> Forall (eq c) l -> exact_mean A (Z.of_nat (length l)) ->
  mean_axis0 l = color_of c.
Proof.
  intros (Hr & Hg & Hb) Hc Hn. unfold mean_axis0, color_of.
  rewrite !(channel_sum_uniform _ c l Hc).
  now rewrite !Hn by assumption.
Qed.

Lemma uniform_any_arithmetic arr H W c :
  shape arr = [H; W] -> wf_array arr -> Forall (eq c) (buf arr) -> uint8 c ->
  exact_mean A (Z.of_nat (length (corners arr))) ->
  bg_color arr = color_of c
  /\ forall t, greater t (of_int 0) = true ->
       compute_mask arr (bg_color arr) t = mk_array [H; W] (repeat 0%Z (H * W)).
Proof.
  intros Hs Hwf Hc Hu Hn.
  assert (Hbg : bg_color arr = color_of c).
  { unfold bg_color. apply mean_axis0_uniform; try assumption.
    rewrite (corners_regions arr H W Hs).
    now apply Forall_corner_regions. }
  split; [exact Hbg|]. intros t Ht.
  unfold compute_mask. rewrite Hs, Hbg. f_equal.
  unfold wf_array in Hwf. rewrite Hs in Hwf. simpl in Hwf.
  replace (H * W) with (length (buf arr)) by lia.
  clear Hwf Hn Hbg. induction Hc as [|p l Hp Hl IH]; [reflexivity|].
  subst p. cbn [map length repeat]. rewrite IH. f_equal.
  now rewrite cast_times_255, (norm_self c Hu), (greater_zero A laws t Ht).
Qed.

End Uniform.

(** ** The real numbers *)

Lemma greater_reals (x y : R) : @greater reals x y = true <-> (y < x)%R.
Proof.
  unfold greater, reals. destruct (Rlt_dec y x); split; intros; auto; discriminate.
Qed.

Lemma norm_reals p bg : @norm reals p bg = distance p bg.
Proof. now destruct p as [[r g] b], bg as [[mr mg] mb]. Qed.

Lemma zero_laws_reals : zero_laws reals.
Proof.
  split; cbn [reals num of_int subtract multiply add root greater].
  - intros c _. ring.
  - ring.
  - ring.
  - apply sqrt_0.
  - intros t Ht.
    destruct (Rlt_dec 0 t); [|discriminate].
    destruct (Rlt_dec t 0); [lra|reflexivity].
Qed.

Lemma exact_mean_reals n : (0 < n)%Z -> exact_mean reals n.
Proof.
  intros Hn c _. cbn [reals num of_int true_divide].
  rewrite mult_IZR. field. apply not_0_IZR. lia.
Qed.

(** [mean * n = sum]: the real mean is the arithmetic mean. *)
Lemma mean_axis0_reals (l : list rgb) :
  l <> [] ->
  let n := IZR (Z.of_nat (length l)) in
  let '(mr, mg, mb) := @mean_axis0 reals l in
  (mr * n = IZR (channel_sum red l)
   /\ mg * n = IZR (channel_sum green l)
   /\ mb * n = IZR (channel_sum blue l))%R.
Proof.
  intros Hl. unfold mean_axis0. cbn [reals num of_int true_divide].
  assert (Hn : IZR (Z.of_nat (length l)) <> 0%R).
  { apply not_0_IZR. destruct l; [contradiction|]. simpl. lia. }
  repeat split; field; exact Hn.
Qed.

(** The sum the estimator divides is the sum of the list. *)
Lemma channel_sum_fold ch l :
  channel_sum ch l = fold_right Z.add 0%Z (map ch l).
Proof.
  unfold channel_sum. induction l as [|p l IH]; [reflexivity|].
  cbn [fold_right map]. now rewrite IH.
Qed.

(** The sum of a list that is not empty, term by term. *)
Lemma IZR_fold_sum (ch : rgb -> Z) (l : list rgb) :
  l <> [] ->
  IZR (fold_right Z.add 0%Z (map ch l))
  = sum_f_R0 (fun k => IZR (ch (nth k l black))) (length l - 1).
Proof.
  induction l as [|p l IH]; [congruence|]. intros _.
  cbn [map fold_right length]. rewrite plus_IZR, Nat.sub_succ, Nat.sub_0_r.
  destruct l as [|p' l'].
  - cbn. ring.
  - rewrite IH by discriminate.
    cbn [length]. rewrite Nat.sub_succ, Nat.sub_0_r.
    rewrite (decomp_sum (fun k => IZR (ch (nth k (p :: p' :: l') black)))
               (S (length l'))) by lia.
    reflexivity.
Qed.

(** ** Binary64 *)

Lemma In_bytes c : (0 <= c <= 255)%Z -> In c bytes.
Proof.
  intros Hc. unfold bytes. apply in_map_iff. exists (Z.to_nat c).
  split; [lia|]. apply in_seq. lia.
Qed.

(** An equation between floats that holds at every byte, by evaluation. *)
Lemma at_every_byte (f g : Z -> PrimFloat.float) :
  forallb (fun c => PrimFloat.Leibniz.eqb (f c) (g c)) bytes = true ->
  forall c, (0 <= c <= 255)%Z -> f c = g c.
Proof.
  intros Hall c Hc. apply FloatAxioms.Leibniz.eqb_spec.
  exact (proj1 (forallb_forall _ _) Hall c (In_bytes c Hc)).
Qed.

Lemma zero_laws_binary64 : zero_laws binary64.
Proof.
  split; cbn [binary64 num of_int subtract multiply add root greater].
  - apply (at_every_byte (fun c => PrimFloat.sub (float_of_int c) (float_of_int c))
                         (fun _ => float_of_int 0)).
    vm_compute. reflexivity.
  - reflexivity.
  - reflexivity.
  - reflexivity.
  - intros t. rewrite !FloatAxioms.ltb_spec.
    change (FloatOps.Prim2SF (float_of_int 0)) with (SpecFloat.S754_zero false).
    destruct (FloatOps.Prim2SF t) as [s|s| |s m e]; cbn;
      try destruct s; congruence.
Qed.

Lemma sample_counts_divide_exactly : forallb divides_exactly sample_counts = true.
Proof. vm_compute. reflexivity. Qed.

Lemma In_sample_counts H W :
  1 <= H -> 1 <= W -> Nat.min H W < 20 * 1000 ->
  let m := Nat.max 5 (Nat.min H W / 20) in
  In (Z.of_nat (4 * (Nat.min m H * Nat.min m W))) sample_counts.
Proof.
  intros HH HW Hb m. unfold sample_counts. apply in_app_iff.
  destruct (Nat.le_gt_cases (Nat.min H W / 20) 5) as [Hsmall|Hbig].
  - left. apply in_flat_map. exists (Nat.min m H). split.
    + apply in_seq. lia.
    + apply in_map_iff. exists (Nat.min m W). split; [lia|].
      apply in_seq. lia.
  - right. apply in_map_iff. exists m.
    assert (Hm : m = Nat.min H W / 20) by lia.
    assert (Hle : m <= Nat.min H W).
    { rewrite Hm. apply Nat.Div0.div_le_upper_bound. lia. }
    assert (Hlt : m < 1000).
    { rewrite Hm. apply Nat.Div0.div_lt_upper_bound. lia. }
    split.
    + rewrite !Nat.min_l by lia. lia.
    + apply in_seq. lia.
Qed.

Lemma exact_mean_binary64 arr H W :
  shape arr = [H; W] -> 1 <= H -> 1 <= W -> Nat.min H W < 20 * 1000 ->
  exact_mean binary64 (Z.of_nat (length (corners arr))).
Proof.
  intros Hs HH HW Hb. rewrite (length_corners arr H W Hs). cbv zeta.
  pose proof (In_sample_counts H W HH HW Hb) as Hin. cbv zeta in Hin.
  pose proof (proj1 (forallb_forall _ _) sample_counts_divide_exactly _ Hin) as Hd.
  intros c Hc. cbn [binary64 num of_int true_divide].
  apply FloatAxioms.Leibniz.eqb_spec.
  exact (proj1 (forallb_forall _ _) Hd c (In_bytes c Hc)).
Qed.

Lemma forallb2_In {A B : Type} (f : A -> B -> bool) la lb :
  forallb2 f la lb = true -> forall a b, In a la -> In b lb -> f a b = true.
Proof.
  unfold forallb2. intros H a b Ha Hb.
  apply (proj1 (forallb_forall _ _) (proj1 (forallb_forall _ _) H a Ha) b Hb).
Qed.

Lemma forallb3_In {A B : Type} (pre : A -> A -> B) (f : B -> A -> bool) l :
  forallb3 pre f l = true ->
  forall a b c, In a l -> In b l -> In c l -> f (pre a b) c = true.
Proof.
  unfold forallb3. intros H a b c Ha Hb Hc.
  pose proof (proj1 (forallb_forall _ _) H a Ha) as H1. cbv beta in H1.
  pose proof (proj1 (forallb_forall _ _) H1 b Hb) as H2. cbv beta zeta in H2.
  exact (proj1 (forallb_forall _ _) H2 c Hc).
Qed.

Lemma differences_exact : forallb2 difference_exact bytes bytes = true.
Proof. vm_compute. reflexivity. Qed.

Lemma squares_exact : forallb square_exact bytes = true.
Proof. vm_compute. reflexivity. Qed.

Lemma thresholds_exact : forallb3 add_squares threshold_exact squares = true.
Proof. vm_compute. reflexivity. Qed.

Lemma In_squares d :
  (-255 <= d <= 255)%Z -> In ((d * d)%Z, float_of_int (d * d)) squares.
Proof.
  intros Hd. unfold squares.
  apply (in_map_iff (fun d => let s := (Z.of_nat d * Z.of_nat d)%Z in (s, float_of_int s))).
  exists (Z.abs_nat d). split.
  - cbv zeta. replace (Z.of_nat (Z.abs_nat d) * Z.of_nat (Z.abs_nat d))%Z
      with (d * d)%Z by (rewrite Zabs2Nat.id_abs; lia).
    reflexivity.
  - apply in_seq. lia.
Qed.

Lemma sub_bytes p m :
  (0 <= p <= 255)%Z -> (0 <= m <= 255)%Z ->
  PrimFloat.sub (float_of_int p) (float_of_int m) = float_of_int (p - m).
Proof.
  intros Hp Hm. apply FloatAxioms.Leibniz.eqb_spec.
  exact (forallb2_In difference_exact bytes bytes differences_exact p m
           (In_bytes p Hp) (In_bytes m Hm)).
Qed.

Lemma mul_difference d :
  (-255 <= d <= 255)%Z ->
  PrimFloat.mul (float_of_int d) (float_of_int d) = float_of_int (d * d).
Proof.
  intros Hd. apply FloatAxioms.Leibniz.eqb_spec.
  destruct (Z.le_gt_cases 0 d) as [Hpos | Hneg].
  - pose proof (proj1 (forallb_forall square_exact bytes) squares_exact d
                  (In_bytes d (conj Hpos (proj2 Hd)))) as H1.
    unfold square_exact in H1. now apply andb_true_iff in H1.
  - assert (Hb : (0 <= - d <= 255)%Z) by lia.
    pose proof (proj1 (forallb_forall square_exact bytes) squares_exact (- d)%Z
                  (In_bytes (- d) Hb)) as H1.
    unfold square_exact in H1. apply andb_true_iff in H1. destruct H1 as [_ H1].
    rewrite Z.opp_involutive in H1.
    now replace (- d * - d)%Z with (d * d)%Z in H1 by lia.
Qed.

(** In binary64 the comparison with the threshold, for a pixel and a
    background colour of whole bytes, is the comparison of integers. *)
Lemma greater_norm_bytes (p m : rgb) :
  uint8 p -> uint8 m ->
  @greater binary64 (norm p (color_of m)) thresh
  = (900 <? (red p - red m) * (red p - red m)
            + (green p - green m) * (green p - green m)
            + (blue p - blue m) * (blue p - blue m))%Z.
Proof.
  destruct p as [[r g] b], m as [[mr mg] mb].
  unfold uint8, red, green, blue. cbn [fst snd].
  intros (Hr & Hg & Hb) (Hmr & Hmg & Hmb).
  unfold norm, color_of, red, green, blue, thresh.
  cbn [fst snd binary64 num of_int subtract multiply add root greater].
  rewrite !sub_bytes by assumption.
  rewrite !mul_difference by lia.
  assert (Hdr : (-255 <= r - mr <= 255)%Z) by lia.
  assert (Hdg : (-255 <= g - mg <= 255)%Z) by lia.
  assert (Hdb : (-255 <= b - mb <= 255)%Z) by lia.
  pose proof (forallb3_In add_squares threshold_exact squares thresholds_exact
                _ _ _ (In_squares _ Hdr) (In_squares _ Hdg) (In_squares _ Hdb)) as H.
  unfold threshold_exact, add_squares in H. cbn [fst snd] in H.
  now apply Bool.eqb_prop in H.
Qed.

(** ** The threshold over the reals *)

Lemma sqrt_900 : sqrt 900 = 30%R.
Proof. replace 900%R with (30 * 30)%R by lra. apply sqrt_square. lra. Qed.

Lemma sqrt_above_30 x : (0 <= x)%R -> (30 < sqrt x <-> 900 < x)%R.
Proof.
  intros Hx. rewrite <- sqrt_900. split.
  - apply sqrt_lt_0_alt.
  - intros H. apply sqrt_lt_1_alt. lra.
Qed.

(** The distance between a pixel and a colour of whole numbers. *)
Lemma distance_bytes (p m : rgb) :
  distance p (@color_of reals m)
  = sqrt (IZR ((red p - red m) * (red p - red m)
               + (green p - green m) * (green p - green m)
               + (blue p - blue m) * (blue p - blue m))).
Proof.
  destruct p as [[r g] b], m as [[mr mg] mb].
  unfold distance, color_of, red, green, blue.
  cbn [fst snd reals num of_int]. f_equal.
  rewrite !plus_IZR, !mult_IZR, !minus_IZR. reflexivity.
Qed.

(** * The blur *)

Lemma getpixel_in_range {A : Type} (Q : A -> Prop) d (im : image A) x y :
  wf_image im -> Forall Q (pixels im) -> x < width im -> y < height im ->
  Q (getpixel d im x y).
Proof.
  intros Hwf HQ Hx Hy. unfold getpixel. apply Forall_nth; [assumption|].
  rewrite Hwf. now apply flat_index_lt.
Qed.

Lemma wf_transpose {A : Type} (d : A) im : wf_image (transpose d im).
Proof. unfold wf_image. simpl. apply length_tabulate2. Qed.

Lemma transpose_const {A : Type} (d c : A) w h :
  transpose d (mk_image w h (repeat c (h * w))) =
  mk_image h w (repeat c (w * h)).
Proof.
  unfold transpose. cbn [width height pixels]. f_equal.
  apply tabulate2_const. intros y x Hy Hx.
  unfold getpixel. cbn [width pixels].
  apply nth_repeat_lt. now apply flat_index_lt.
Qed.

Lemma transpose_involutive {A : Type} (d : A) im :
  wf_image im -> transpose d (transpose d im) = im.
Proof.
  intros Hwf. destruct im as [w h px]. unfold transpose at 1.
  cbn [width height pixels transpose] in *. f_equal.
  apply tabulate2_nth with (d := d); [exact Hwf|].
  intros y x Hy Hx. unfold getpixel at 1, transpose. cbn [width height pixels].
  now rewrite nth_tabulate2.
Qed.

Lemma Forall_transpose {A : Type} (Q : A -> Prop) d im :
  wf_image im -> Forall Q (pixels im) -> Forall Q (pixels (transpose d im)).
Proof.
  intros Hwf HQ. unfold transpose. cbn [pixels].
  apply Forall_tabulate2. intros y x Hy Hx.
  now apply getpixel_in_range.
Qed.

Lemma wf_gaussian_blur {P : Pillow} im : wf_image (gaussian_blur im).
Proof. apply wf_transpose. Qed.

Lemma size_gaussian_blur {P : Pillow} im :
  width (gaussian_blur im) = width im /\ height (gaussian_blur im) = height im.
Proof. split; reflexivity. Qed.

(** A pass leaves an image of one value [c] at the value [box_tap c c c]. *)
Lemma horizontal_box_blur_const {P : Pillow} w h c :
  horizontal_box_blur (mk_image w h (repeat c (h * w))) =
  mk_image w h (repeat (box_tap c c c) (h * w)).
Proof.
  unfold horizontal_box_blur. cbn [width height pixels]. f_equal.
  apply tabulate2_const. intros y x Hy Hx.
  unfold getpixel. cbn [width pixels].
  rewrite !nth_repeat_lt; [reflexivity| | |]; apply flat_index_lt; lia.
Qed.

(** The two side weights and the centre weight sum to 2^24 or to one less,
    whatever the centre weight. *)
Lemma weights_sum {P : Pillow} :
  (ww + 2 * fw = Z.shiftl 1 24 \/ ww + 2 * fw = Z.shiftl 1 24 - 1)%Z.
Proof.
  unfold fw. change (Z.shiftl 1 24) with 16777216%Z.
  Z.div_mod_to_equations. lia.
Qed.

Lemma box_tap_255 {P : Pillow} : box_tap 255 255 255 = 255%Z.
Proof.
  unfold box_tap, fw, uint32, wrap8. rewrite Z.shiftr_div_pow2 by lia.
  change (Z.shiftl 1 24) with 16777216%Z. change (Z.shiftl 1 23) with 8388608%Z.
  change (2 ^ 32)%Z with 4294967296%Z. change (2 ^ 24)%Z with 16777216%Z.
  Z.div_mod_to_equations. lia.
Qed.

(** The weights of a tap sum to 2^24 at most and the border pixel is
    repeated: a mask that is 255 everywhere stays 255 everywhere, the border
    included. *)
Lemma gaussian_blur_full {P : Pillow} w h :
  gaussian_blur (mk_image w h (repeat 255%Z (h * w))) =
  mk_image w h (repeat 255%Z (h * w)).
Proof.
  unfold gaussian_blur, three_passes.
  rewrite !horizontal_box_blur_const, !box_tap_255, transpose_const.
  rewrite !horizontal_box_blur_const, !box_tap_255, transpose_const.
  reflexivity.
Qed.

Section Weights.
Context {P : Pillow}.
Hypothesis range : weight_in_range P.

Ltac weigh :=
  unfold weight_in_range in range;
  unfold box_tap, fw, uint32, wrap8; rewrite Z.shiftr_div_pow2 by lia;
  change (Z.shiftl 1 24) with 16777216%Z; change (Z.shiftl 1 23) with 8388608%Z;
  change (2 ^ 32)%Z with 4294967296%Z; change (2 ^ 24)%Z with 16777216%Z;
  change (2 ^ 23)%Z with 8388608%Z in range;
  change (2 ^ 24)%Z with 16777216%Z in range;
  Z.div_mod_to_equations; lia.

Lemma box_tap_binary a l r :
  binary01 a -> binary01 l -> binary01 r -> box_tap a l r = a.
Proof. intros [-> | ->] [-> | ->] [-> | ->]; weigh. Qed.

(** A pass is the identity on an image of zeros and ones. *)
Lemma horizontal_box_blur_binary im :
  wf_image im -> Forall binary01 (pixels im) -> horizontal_box_blur im = im.
Proof.
  intros Hwf Hb. destruct im as [w h px]. unfold horizontal_box_blur.
  cbn [width height pixels] in *. f_equal.
  apply tabulate2_nth with (d := 0%Z); [exact Hwf|].
  intros y x Hy Hx. rewrite box_tap_binary.
  - reflexivity.
  - apply getpixel_in_range; assumption.
  - apply getpixel_in_range; cbn [width height]; try assumption; lia.
  - apply getpixel_in_range; cbn [width height]; try assumption; lia.
Qed.

Lemma gaussian_blur_binary im :
  wf_image im -> Forall binary01 (pixels im) -> gaussian_blur im = im.
Proof.
  intros Hwf Hb. unfold gaussian_blur, three_passes.
  rewrite !(horizontal_box_blur_binary im Hwf Hb).
  rewrite !(horizontal_box_blur_binary (transpose 0%Z im) (wf_transpose 0%Z im)
                                       (Forall_transpose binary01 0%Z im Hwf Hb)).
  now apply transpose_involutive.
Qed.

End Weights.

Lemma weight_in_range_single : weight_in_range single_precision.
Proof. unfold weight_in_range. cbn [ww single_precision]. lia. Qed.

Lemma weight_in_range_wider : weight_in_range wider_precision.
Proof. unfold weight_in_range. cbn [ww wider_precision]. lia. Qed.

(** * The compositor *)

Lemma nth_set_alpha (l : list rgba) (al : list Z) k d :
  k < length l -> k < length al ->
  nth k (map set_alpha (combine l al)) d =
  (fst (fst (fst (nth k l d))), snd (fst (fst (nth k l d))),
   snd (fst (nth k l d)), nth k al 0%Z).
Proof.
  revert al k. induction l as [|[[[r g] b] a0] l IH]; intros al k Hl Ha.
  - simpl in Hl. lia.
  - destruct al as [|a al]; [simpl in Ha; lia|].
    destruct k as [|k]; [reflexivity|].
    simpl in *. apply IH; lia.
Qed.

Lemma length_set_alpha (l : list rgba) (al : list Z) :
  length l = length al -> length (map set_alpha (combine l al)) = length l.
Proof. intros H. rewrite length_map, length_combine. lia. Qed.

Lemma rgb_of_set_alpha (p : rgba) a :
  rgb_of (fst (fst (fst p)), snd (fst (fst p)), snd (fst p), a) = rgb_of p.
Proof. now destruct p as [[[r g] b] a0]. Qed.

Lemma apply_mask_and_save_2d {P : Pillow} pil mask h w :
  shape mask = [h; w] ->
  apply_mask_and_save pil mask =
  putalpha pil (gaussian_blur (mk_image w h (map wrap8 (buf mask)))).
Proof.
  intros Hs. unfold apply_mask_and_save. rewrite Hs. reflexivity.
Qed.

Lemma putalpha_same_size pil alpha :
  width alpha = width pil -> height alpha = height pil ->
  putalpha pil alpha =
  inr (mk_image (width pil) (height pil)
         (map set_alpha (combine (pixels pil) (pixels alpha)))).
Proof.
  intros Hw Hh. unfold putalpha. now rewrite Hw, Hh, !Nat.eqb_refl.
Qed.

Lemma putalpha_other_size pil alpha :
  width alpha <> width pil \/ height alpha <> height pil ->
  putalpha pil alpha = inl ValueError_images_do_not_match.
Proof.
  intros H. unfold putalpha.
  destruct (Nat.eqb_spec (width alpha) (width pil));
    destruct (Nat.eqb_spec (height alpha) (height pil)); try reflexivity.
  tauto.
Qed.

(** The output of [putalpha], pixel by pixel. *)
Lemma putalpha_pixels (pil : image rgba) (alpha : image Z) :
  wf_image pil -> wf_image alpha ->
  width alpha = width pil -> height alpha = height pil ->
  exists out,
    putalpha pil alpha = inr out
    /\ width out = width pil /\ height out = height pil /\ wf_image out
    /\ forall x y, x < width pil -> y < height pil ->
         rgb_of (getpixel transparent out x y) = rgb_of (getpixel transparent pil x y)
         /\ alpha_of (getpixel transparent out x y) = getpixel 0%Z alpha x y.
Proof.
  intros Hpil Halpha Hw Hh.
  assert (Ha : length (pixels alpha) = height pil * width pil)
    by (unfold wf_image in Halpha; now rewrite Halpha, Hw, Hh).
  rewrite putalpha_same_size by assumption.
  eexists. split; [reflexivity|]. cbn [width height pixels].
  repeat split.
  - unfold wf_image. cbn [width height pixels].
    rewrite length_set_alpha; [exact Hpil | now rewrite Ha].
  - unfold getpixel. cbn [width pixels].
    rewrite nth_set_alpha.
    + apply rgb_of_set_alpha.
    + rewrite Hpil. now apply flat_index_lt.
    + rewrite Ha. now apply flat_index_lt.
  - unfold getpixel. cbn [width pixels].
    rewrite nth_set_alpha.
    + now rewrite Hw.
    + rewrite Hpil. now apply flat_index_lt.
    + rewrite Ha. now apply flat_index_lt.
Qed.

(** The alpha band after compositing with a mask of the image's size. *)
Lemma apply_mask_same_size {P : Pillow} (pil : image rgba) (mask : ndarray Z) :
  wf_image pil -> shape mask = [height pil; width pil] ->
  exists out,
    apply_mask_and_save pil mask = inr out
    /\ width out = width pil /\ height out = height pil
    /\ forall x y, x < width pil -> y < height pil ->
         alpha_of (getpixel transparent out x y) =
         getpixel 0%Z
           (gaussian_blur (mk_image (width pil) (height pil) (map wrap8 (buf mask))))
           x y.
Proof.
  intros Hpil Hs.
  rewrite (apply_mask_and_save_2d pil mask _ _ Hs).
  destruct (putalpha_pixels pil
              (gaussian_blur (mk_image (width pil) (height pil) (map wrap8 (buf mask))))
              Hpil (wf_gaussian_blur _) eq_refl eq_refl)
    as (out & Hout & Hw & Hh & _ & Hpx).
  exists out. repeat split; try assumption. intros x y Hx Hy.
  now apply Hpx.
Qed.

(** * The model hook *)

Lemma model_mask_with_predict MODEL_DIR name predict pil :
  MODEL_DIR name = Some (pickled (with_predict predict)) ->
  model_mask MODEL_DIR name pil =
  (pred <- predict (np_array (convert_RGB pil)) ;;
   mask <- asarray_uint8 pred ;;
   if ndim mask =? 3 then index_last0 0%Z mask else ret mask)%py.
Proof.
  intros Hm. unfold model_mask, load_pickle_model. now rewrite Hm.
Qed.

Lemma elements_wf {A : Type} (a : ndarray A) :
  wf_array a -> elements a = buf a.
Proof.
  unfold wf_array, elements. intros <-. apply firstn_all.
Qed.

Lemma discover_object v : discover v = object <-> beyond_64_bits v.
Proof.
  destruct v as [z | q |]; cbn [discover beyond_64_bits];
    [|split; [discriminate | tauto] ..].
  destruct (Z.leb_spec (- 2 ^ 63) z); destruct (Z.ltb_spec z (2 ^ 63));
    destruct (Z.leb_spec (2 ^ 63) z); destruct (Z.ltb_spec z (2 ^ 64));
    cbn [andb]; split; intros; try discriminate; try reflexivity; lia.
Qed.

Lemma promote_object d d' :
  promote d d' = object <-> d = object \/ d' = object.
Proof.
  destruct d, d'; cbn; split; intros; try discriminate; auto;
    destruct H; discriminate.
Qed.

Lemma fold_promote_object l d :
  fold_left promote l d = object <-> d = object \/ In object l.
Proof.
  revert d. induction l as [|d' l IH]; intros d; cbn [fold_left In].
  - tauto.
  - rewrite IH, promote_object. intuition congruence.
Qed.

(** An array is of objects exactly when it holds an integer beyond 64 bits. *)
Lemma result_type_object l :
  result_type l = object <-> Exists beyond_64_bits l.
Proof.
  destruct l as [|v l]; cbn [result_type].
  - split; [discriminate | intros H; inversion H].
  - rewrite fold_promote_object, Exists_cons, in_map_iff, Exists_exists.
    rewrite discover_object. split.
    + intros [H | (x & Hx & Hin)]; [now left | right].
      exists x. split; [exact Hin | now apply discover_object].
    + intros [H | (x & Hin & Hx)]; [now left | right].
      exists x. split; [now apply discover_object | exact Hin].
Qed.

Lemma fits_int64_not_beyond v : fits_int64 v -> ~ beyond_64_bits v.
Proof. destruct v; cbn [fits_int64 beyond_64_bits]; intros; try tauto. lia. Qed.

Lemma result_type_numeric l :
  Forall fits_int64 l -> result_type l <> object.
Proof.
  intros Hl H. apply result_type_object, Exists_exists in H.
  destruct H as (v & Hin & Hv). revert Hv. apply fits_int64_not_beyond.
  exact (proj1 (Forall_forall _ _) Hl v Hin).
Qed.

Lemma discover_int64 v : is_int64 v -> discover v = int64.
Proof.
  destruct v as [z | q |]; cbn [is_int64 discover]; try contradiction.
  intros Hz.
  destruct (Z.leb_spec (- 2 ^ 63) z); destruct (Z.ltb_spec z (2 ^ 63));
    try reflexivity; lia.
Qed.

(** An array of such integers is of int64. *)
Lemma result_type_int64 l :
  Forall is_int64 l -> l <> [] -> result_type l = int64.
Proof.
  destruct l as [|v l]; [congruence|]. intros H _.
  inversion H as [|? ? Hv Hl]; subst. cbn [result_type].
  rewrite (discover_int64 v Hv). clear H Hv.
  induction Hl as [|x l Hx _ IH]; [reflexivity|].
  cbn [map fold_left]. now rewrite (discover_int64 x Hx).
Qed.

Lemma is_int64_fits v : is_int64 v -> fits_int64 v.
Proof. now destruct v. Qed.

Lemma within_int32_fits v : within_int32 v -> fits_int64 v.
Proof. destruct v; cbn [within_int32 fits_int64]; intros; try exact I. lia. Qed.

(** Where the integer part is within 32 bits the cast keeps it modulo 256,
    whatever the type of the array. *)
Lemma astype_uint8_within d v :
  within_int32 v -> astype_uint8 d v = (integer_part v mod 256)%Z.
Proof.
  assert (H32 : forall t, (- 2 ^ 31 <= t < 2 ^ 31)%Z -> int32 t = true).
  { intros t Ht. unfold int32.
    destruct (Z.leb_spec (- 2 ^ 31) t); destruct (Z.ltb_spec t (2 ^ 31));
      try reflexivity; lia. }
  destruct v as [z | q |]; cbn [within_int32]; intros Hv; [| |contradiction];
    destruct d; cbn [astype_uint8 integer_part float64_to_uint8];
    rewrite ?(H32 _ Hv); reflexivity.
Qed.

Lemma wrap8_astype_uint8 d v : wrap8 (astype_uint8 d v) = astype_uint8 d v.
Proof.
  assert (H : forall z, wrap8 (wrap8 z) = wrap8 z)
    by (intros z; unfold wrap8; apply Z.mod_mod; discriminate).
  destruct d, v; cbn [astype_uint8 float64_to_uint8]; try apply H;
    destruct (int32 _); apply H.
Qed.

Lemma nth_map_astype d l k :
  nth k (map (astype_uint8 d) l) 0%Z = astype_uint8 d (nth k l (Int 0)).
Proof.
  rewrite <- (map_nth (astype_uint8 d) l (Int 0) k). f_equal.
  now destruct d.
Qed.

(** The cast of an array that holds no integer beyond 64 bits. *)
Lemma asarray_uint8_numeric a :
  Forall fits_int64 (elements a) ->
  asarray_uint8 (PyArray a) =
  inr (mk_array (shape a) (map (astype_uint8 (result_type (elements a))) (buf a))).
Proof.
  intros H. apply result_type_numeric in H. cbn [asarray_uint8].
  now destruct (result_type (elements a)).
Qed.

Lemma asarray_uint8_overflow a v :
  In v (elements a) -> beyond_64_bits v ->
  asarray_uint8 (PyArray a) = inl OverflowError.
Proof.
  intros Hin Hv. cbn [asarray_uint8].
  replace (result_type (elements a)) with object; [reflexivity|].
  symmetry. apply result_type_object, Exists_exists. now exists v.
Qed.

Section Hook.
Context {A : Arithmetic} {P : Pillow}.

Lemma process_local_fallback MODEL_DIR name pil e :
  model_mask MODEL_DIR name pil = inl e ->
  process_local MODEL_DIR name pil =
  match apply_mask_and_save pil (fallback_mask pil) with
  | inr after => ok_200 after
  | inl e' => error_500 e'
  end.
Proof. intros H. unfold process_local. now rewrite H. Qed.

Lemma process_local_model MODEL_DIR name pil mask :
  model_mask MODEL_DIR name pil = inr mask ->
  process_local MODEL_DIR name pil =
  match apply_mask_and_save pil mask with
  | inr after => ok_200 after
  | inl e' => error_500 e'
  end.
Proof. intros H. unfold process_local. now rewrite H. Qed.

End Hook.

(** * The claims *)

(** C1.  On an image of height H >= 1 and width W >= 1 the estimator takes
    the margin m = max(5, min(H, W) // 20), samples the four corner squares
    of side m, each clamped to the image and overlaps counted as often as
    they occur, and returns per channel the arithmetic mean of exactly these
    samples: in every arithmetic the sum of the samples, which is formed
    without rounding, divided by their number as that arithmetic divides;
    over the reals the number that, multiplied by the number of samples,
    gives the sum of the samples term by term. *)
Theorem background_estimator_corner_mean (arr : ndarray rgb) (H W : nat) :
  shape arr = [H; W] -> 1 <= H -> 1 <= W ->
  let m := Nat.max 5 (Nat.min H W / 20) in
  let samples := corner_regions arr H W m in
  let n := length samples in
  let total ch := fold_right Z.add 0%Z (map ch samples) in
  let term ch k := IZR (ch (nth k samples black)) in
  margin H W = Z.of_nat m
  /\ corners arr = samples
  /\ n = 4 * (Nat.min m H * Nat.min m W)
  /\ 0 < n
  /\ (forall A : Arithmetic,
        @bg_color A arr =
        (true_divide (of_int (total red)) (of_int (Z.of_nat n)),
         true_divide (of_int (total green)) (of_int (Z.of_nat n)),
         true_divide (of_int (total blue)) (of_int (Z.of_nat n))))
  /\ (fst (fst (@bg_color reals arr)) * INR n = sum_f_R0 (term red) (n - 1)
      /\ snd (fst (@bg_color reals arr)) * INR n = sum_f_R0 (term green) (n - 1)
      /\ snd (@bg_color reals arr) * INR n = sum_f_R0 (term blue) (n - 1))%R.
Proof.
  intros Hs HH HW m samples n total term.
  assert (Hlen : n = 4 * (Nat.min m H * Nat.min m W))
    by apply length_corner_regions.
  assert (Hpos : 0 < n) by (subst m; nia).
  assert (Hc : corners arr = samples) by now apply corners_regions.
  assert (Hne : samples <> []).
  { intros E. unfold n in Hpos. rewrite E in Hpos. inversion Hpos. }
  pose proof (mean_axis0_reals samples Hne) as Hmean.
  split; [apply margin_nat|]. split; [exact Hc|]. split; [exact Hlen|].
  split; [exact Hpos|]. split.
  - intros A. unfold bg_color, mean_axis0. rewrite Hc.
    unfold total. now rewrite !channel_sum_fold.
  - unfold bg_color. rewrite Hc.
    destruct (@mean_axis0 reals samples) as [[mr mg] mb]. cbn [fst snd].
    cbv zeta in Hmean. rewrite <- INR_IZR_INZ in Hmean.
    rewrite !channel_sum_fold in Hmean.
    rewrite !(IZR_fold_sum _ samples Hne) in Hmean.
    exact Hmean.
Qed.

(** On the sample image every corner square is the whole image: 24 samples,
    whose sums are 1000, 480 and 720. *)
Lemma background_estimator_corner_mean_witness :
  corners (np_array (convert_RGB sample_image)) =
  corner_regions (np_array (convert_RGB sample_image)) 2 3 5
  /\ length (corner_regions (np_array (convert_RGB sample_image)) 2 3 5) = 24
  /\ @bg_color binary64 (np_array (convert_RGB sample_image))
     = (PrimFloat.div (float_of_int 1000) (float_of_int 24),
        PrimFloat.div (float_of_int 480) (float_of_int 24),
        PrimFloat.div (float_of_int 720) (float_of_int 24)).
Proof.
  destruct (background_estimator_corner_mean
              (np_array (convert_RGB sample_image)) 2 3 eq_refl
              (le_S 1 1 (le_n 1)) (le_S 1 2 (le_S 1 1 (le_n 1))))
    as (_ & Hc & Hl & _ & Hbg & _).
  split; [exact Hc|]. split; [exact Hl|]. exact (Hbg binary64).
Defined.

(** C2.  With the threshold 30.0 the mask of an H x W image is an H x W array
    of values in {0, 255}; its value at a pixel is 255 exactly when the
    distance between the pixel and the background colour, as the arithmetic
    evaluates it, is strictly greater than 30, and 0 otherwise.  Over the
    reals this distance is the Euclidean distance in RGB space.  In binary64
    the value is 255 exactly when the Euclidean distance is greater than 30
    for every background colour of whole bytes, where no operation before
    the root rounds. *)
Theorem mask_synthesizer_threshold (arr : ndarray rgb) (H W : nat) :
  shape arr = [H; W] -> wf_array arr ->
  (forall (A : Arithmetic) (bg : @color A),
     let mask := compute_mask arr bg thresh in
     shape mask = [H; W]
     /\ wf_array mask
     /\ Forall (fun v => v = 0%Z \/ v = 255%Z) (buf mask)
     /\ forall i j, i < H -> j < W ->
          (item2 0%Z mask i j = 255%Z
           <-> greater (norm (item2 black arr i j) bg) thresh = true)
          /\ (item2 0%Z mask i j = 0%Z
              <-> greater (norm (item2 black arr i j) bg) thresh = false))
  /\ (forall (bg : R * R * R) i j, i < H -> j < W ->
        (item2 0%Z (@compute_mask reals arr bg thresh) i j = 255%Z
         <-> (30 < distance (item2 black arr i j) bg)%R)
        /\ (item2 0%Z (@compute_mask reals arr bg thresh) i j = 0%Z
            <-> (distance (item2 black arr i j) bg <= 30)%R))
  /\ (Forall uint8 (buf arr) ->
      forall (m : rgb) i j, uint8 m -> i < H -> j < W ->
        (item2 0%Z (@compute_mask binary64 arr (color_of m) thresh) i j = 255%Z
         <-> (30 < distance (item2 black arr i j) (@color_of reals m))%R)
        /\ (item2 0%Z (@compute_mask binary64 arr (color_of m) thresh) i j = 0%Z
            <-> (distance (item2 black arr i j) (@color_of reals m) <= 30)%R)).
Proof.
  intros Hs Hwf. split; [|split].
  - intros A bg mask. subst mask. repeat split;
      try (rewrite (item2_compute_mask arr bg thresh H W i j Hs Hwf) by assumption;
           destruct (greater _ _); intros; congruence).
    + now rewrite shape_compute_mask.
    + now apply wf_compute_mask.
    + apply binary_compute_mask.
  - intros bg i j Hi Hj.
    rewrite (@item2_compute_mask reals arr bg thresh H W i j Hs Hwf Hi Hj).
    rewrite (norm_reals (item2 black arr i j) bg).
    pose proof (greater_reals (distance (item2 black arr i j) bg) 30%R) as Hg.
    change (@thresh reals) with 30%R.
    destruct (@greater reals _ _).
    + assert (30 < distance (item2 black arr i j) bg)%R by now apply Hg.
      repeat split; intros; try reflexivity; try assumption; try discriminate; lra.
    + assert (~ (30 < distance (item2 black arr i j) bg)%R).
      { intros Hlt. apply Hg in Hlt. discriminate. }
      repeat split; intros; try reflexivity; try discriminate; lra.
  - intros Hbytes m i j Hm Hi Hj.
    assert (Hp : uint8 (item2 black arr i j)).
    { unfold item2, shape_hw. rewrite Hs. cbn [snd].
      apply Forall_nth; [exact Hbytes|].
      unfold wf_array in Hwf. rewrite Hwf, Hs. simpl. nia. }
    rewrite (@item2_compute_mask binary64 arr (color_of m) thresh H W i j
               Hs Hwf Hi Hj).
    rewrite (greater_norm_bytes (item2 black arr i j) m Hp Hm).
    rewrite (distance_bytes (item2 black arr i j) m).
    set (p := item2 black arr i j) in *.
    set (sum := ((red p - red m) * (red p - red m)
                 + (green p - green m) * (green p - green m)
                 + (blue p - blue m) * (blue p - blue m))%Z).
    assert (Hsum : (0 <= sum)%Z)
      by (unfold sum; repeat apply Z.add_nonneg_nonneg; apply Z.square_nonneg).
    pose proof (sqrt_above_30 (IZR sum) (IZR_le 0 sum Hsum)) as Hsq.
    destruct (Z.ltb_spec 900 sum) as [Hlt | Hge].
    + assert (30 < sqrt (IZR sum))%R by (apply Hsq; now apply IZR_lt).
      repeat split; intros; try reflexivity; try assumption; try discriminate; lra.
    + assert (~ (30 < sqrt (IZR sum))%R).
      { intros H30. apply Hsq in H30. apply lt_IZR in H30. lia. }
      repeat split; intros; try reflexivity; try discriminate; lra.
Qed.

Lemma mask_synthesizer_threshold_witness :
  buf (@compute_mask binary64 (np_array (convert_RGB sample_image))
                     (of_int 10, of_int 20, of_int 30) thresh)
  = [0; 0; 0; 255; 0; 0]%Z
  /\ Forall (fun v => v = 0%Z \/ v = 255%Z)
            (buf (@compute_mask binary64 (np_array (convert_RGB sample_image))
                                (of_int 10, of_int 20, of_int 30) thresh)).
Proof.
  split; [reflexivity|].
  exact (proj1 (proj2 (proj2
    (proj1 (mask_synthesizer_threshold (np_array (convert_RGB sample_image))
              2 3 eq_refl eq_refl)
       binary64 (of_int 10, of_int 20, of_int 30))))).
Defined.

(** The claim as it was stated fails in binary64.  On the sample of three
    pixels the background colour is the triple of floats next to 50/3, 44/3
    and 236/3.  The Euclidean distance between the first pixel and this
    triple is below 30, and its distance to the mean itself is 30, yet the
    mask is 255 there: the rounded distance exceeds 30. *)
Lemma mask_synthesizer_threshold_counterexample :
  let arr := np_array (convert_RGB threshold_image) in
  @bg_color binary64 arr = @rounded_mean binary64
  /\ @bg_color reals arr = (50 / 3, 44 / 3, 236 / 3)%R
  /\ item2 black arr 0 0 = (22, 44, 82)%Z
  /\ item2 0%Z (@compute_mask binary64 arr (@rounded_mean binary64) thresh) 0 0
     = 255%Z
  /\ (distance (22, 44, 82)%Z (@rounded_mean reals) < 30)%R
  /\ (distance (22, 44, 82)%Z (50 / 3, 44 / 3, 236 / 3)%R = 30)%R.
Proof.
  cbv zeta. split; [vm_compute; reflexivity|].
  split.
  { unfold bg_color, mean_axis0. cbn [reals num of_int true_divide].
    change (Z.of_nat (length (corners (np_array (convert_RGB threshold_image)))))
      with 12%Z.
    vm_compute channel_sum.
    replace (200 / 12)%R with (50 / 3)%R by field.
    replace (176 / 12)%R with (44 / 3)%R by field.
    replace (944 / 12)%R with (236 / 3)%R by field. reflexivity. }
  split; [reflexivity|]. split; [vm_compute; reflexivity|].
  split.
  - rewrite <- sqrt_900. unfold distance, rounded_mean.
    cbn [reals num of_int true_divide].
    apply sqrt_lt_1_alt. split.
    + repeat apply Rplus_le_le_0_compat; apply Rle_0_sqr.
    + lra.
  - rewrite <- sqrt_900. unfold distance. f_equal. field.
Qed.

(** C6.  On an image of one colour the estimator returns exactly that
    colour, and at every strictly positive threshold the mask is 0 at every
    pixel: over the reals for every such image, and in binary64 for every
    such image whose smaller side is below 20000 pixels. *)
Theorem uniform_image_all_background (arr : ndarray rgb) (H W : nat) (c : rgb) :
  shape arr = [H; W] -> wf_array arr -> 1 <= H -> 1 <= W ->
  Forall (eq c) (buf arr) -> uint8 c ->
  (@bg_color reals arr = color_of c
   /\ forall t : R, (0 < t)%R ->
        @compute_mask reals arr (bg_color arr) t
        = mk_array [H; W] (repeat 0%Z (H * W)))
  /\ (Nat.min H W < 20 * 1000 ->
      @bg_color binary64 arr = color_of c
      /\ forall t : PrimFloat.float, PrimFloat.ltb (float_of_int 0) t = true ->
           @compute_mask binary64 arr (bg_color arr) t
           = mk_array [H; W] (repeat 0%Z (H * W))).
Proof.
  intros Hs Hwf HH HW Hc Hu. split.
  - assert (Hn : exact_mean reals (Z.of_nat (length (corners arr)))).
    { apply exact_mean_reals. rewrite (length_corners arr H W Hs). cbv zeta.
      assert (1 <= Nat.min (Nat.max 5 (Nat.min H W / 20)) H) by lia.
      assert (1 <= Nat.min (Nat.max 5 (Nat.min H W / 20)) W) by lia.
      nia. }
    destruct (uniform_any_arithmetic zero_laws_reals arr H W c Hs Hwf Hc Hu Hn)
      as [Hbg Hmask].
    split; [exact Hbg|]. intros t Ht. apply Hmask.
    now apply greater_reals.
  - intros Hb.
    exact (uniform_any_arithmetic zero_laws_binary64 arr H W c Hs Hwf Hc Hu
             (exact_mean_binary64 arr H W Hs HH HW Hb)).
Qed.

Lemma uniform_image_all_background_witness :
  @bg_color binary64 (np_array (convert_RGB uniform_image))
  = (of_int 128, of_int 128, of_int 128)
  /\ @fallback_mask binary64 uniform_image = mk_array [2; 3] (repeat 0%Z 6).
Proof.
  destruct (uniform_image_all_background
              (np_array (convert_RGB uniform_image)) 2 3 (128, 128, 128)%Z
              eq_refl eq_refl (le_S 1 1 (le_n 1)) (le_S 1 2 (le_S 1 1 (le_n 1))))
    as [_ Hbin].
  - repeat constructor.
  - unfold uint8, red, green, blue. cbn [fst snd]. lia.
  - destruct Hbin as [Hbg Hmask].
    + lia.
    + split; [exact Hbg|]. apply (Hmask (@thresh binary64)). reflexivity.
Defined.

(** C4.  With a mask of the image's dimensions the compositor succeeds, the
    output has the image's dimensions, every RGB value of the output is the
    RGB value of the input at the same pixel, and the alpha value is that of
    the mask blurred with radius 1. *)
Theorem compositor_changes_alpha_only (P : Pillow) (pil : image rgba)
    (mask : ndarray Z) :
  wf_image pil -> shape mask = [height pil; width pil] ->
  exists out,
    apply_mask_and_save pil mask = inr out
    /\ width out = width pil /\ height out = height pil /\ wf_image out
    /\ forall x y, x < width pil -> y < height pil ->
         rgb_of (getpixel transparent out x y) = rgb_of (getpixel transparent pil x y)
         /\ alpha_of (getpixel transparent out x y) =
            getpixel 0%Z
              (gaussian_blur (mk_image (width pil) (height pil) (map wrap8 (buf mask))))
              x y.
Proof.
  intros Hpil Hs.
  rewrite (apply_mask_and_save_2d pil mask _ _ Hs).
  set (mask_img := mk_image (width pil) (height pil) (map wrap8 (buf mask))).
  destruct (putalpha_pixels pil (gaussian_blur mask_img) Hpil
              (wf_gaussian_blur mask_img) eq_refl eq_refl)
    as (out & Hout & Hw & Hh & Hwf & Hpx).
  exists out. repeat split; try assumption; now apply Hpx.
Qed.

Lemma compositor_changes_alpha_only_witness :
  exists out,
    @apply_mask_and_save single_precision sample_image
      (@fallback_mask binary64 sample_image) = inr out
    /\ rgb_of (getpixel transparent out 0 1) = (200, 20, 30)%Z.
Proof.
  destruct (compositor_changes_alpha_only single_precision sample_image
              (@fallback_mask binary64 sample_image) eq_refl eq_refl)
    as (out & Hout & _ & _ & _ & Hpx).
  exists out. split; [exact Hout|].
  exact (proj1 (Hpx 0 1 (le_S 1 2 (le_S 1 1 (le_n 1))) (le_n 2))).
Defined.

(** C5.  A two-dimensional mask whose height or width differs from the
    image's makes the compositor fail with the size-mismatch error; no output
    is produced from a truncated or stretched mask. *)
Theorem compositor_rejects_other_size (P : Pillow) (pil : image rgba)
    (mask : ndarray Z) (h w : nat) :
  shape mask = [h; w] -> h <> height pil \/ w <> width pil ->
  apply_mask_and_save pil mask = inl ValueError_images_do_not_match.
Proof.
  intros Hs Hne. rewrite (apply_mask_and_save_2d pil mask _ _ Hs).
  apply putalpha_other_size.
  destruct (size_gaussian_blur (mk_image w h (map wrap8 (buf mask)))) as [-> ->].
  cbn [width height]. tauto.
Qed.

Lemma compositor_rejects_other_size_witness :
  @apply_mask_and_save single_precision sample_image
    (mk_array [3; 2] [0; 0; 0; 255; 0; 0]%Z)
  = inl ValueError_images_do_not_match.
Proof.
  apply (compositor_rejects_other_size single_precision sample_image
           (mk_array [3; 2] [0; 0; 0; 255; 0; 0]%Z) 3 2 eq_refl).
  left. discriminate.
Defined.

(** C9.  Compositing with a mask that is 255 at every pixel gives an output
    whose alpha value is 255 at every pixel, the border included. *)
Theorem full_mask_full_alpha (P : Pillow) (pil : image rgba) (mask : ndarray Z) :
  wf_image pil -> shape mask = [height pil; width pil] ->
  buf mask = repeat 255%Z (height pil * width pil) ->
  exists out,
    apply_mask_and_save pil mask = inr out
    /\ forall x y, x < width pil -> y < height pil ->
         alpha_of (getpixel transparent out x y) = 255%Z.
Proof.
  intros Hpil Hs Hb.
  rewrite (apply_mask_and_save_2d pil mask _ _ Hs), Hb, map_repeat.
  change (wrap8 255) with 255%Z. rewrite gaussian_blur_full.
  destruct (putalpha_pixels pil
              (mk_image (width pil) (height pil) (repeat 255%Z (height pil * width pil)))
              Hpil (repeat_length _ _) eq_refl eq_refl)
    as (out & Hout & _ & _ & _ & Hpx).
  exists out. split; [exact Hout|]. intros x y Hx Hy.
  rewrite (proj2 (Hpx x y Hx Hy)).
  unfold getpixel. cbn [width pixels].
  apply nth_repeat_lt. now apply flat_index_lt.
Qed.

Lemma full_mask_full_alpha_witness :
  exists out,
    @apply_mask_and_save single_precision sample_image
      (mk_array [2; 3] (repeat 255%Z 6)) = inr out
    /\ alpha_of (getpixel transparent out 2 1) = 255%Z.
Proof.
  destruct (full_mask_full_alpha single_precision sample_image
              (mk_array [2; 3] (repeat 255%Z 6))
              eq_refl eq_refl eq_refl) as (out & Hout & Hpx).
  exists out. split; [exact Hout|].
  exact (Hpx 2 1 (le_n 3) (le_n 2)).
Defined.

(** C3.  Whatever makes the model hook raise -- the file is missing, it does
    not unpickle, the object has no [predict], [predict] or the handling of
    its output raises -- the request is answered with success: the mask is
    the heuristic one, of the image's dimensions and with values in
    {0, 255}, and the compositor accepts it. *)
Theorem model_failure_falls_back (A : Arithmetic) (P : Pillow)
    (MODEL_DIR : directory) (name : string) (pil : image rgba) :
  wf_image pil ->
  (MODEL_DIR name = None ->
     model_mask MODEL_DIR name pil = inl FileNotFoundError)
  /\ (MODEL_DIR name = Some corrupt ->
        model_mask MODEL_DIR name pil = inl RuntimeError)
  /\ (MODEL_DIR name = Some (pickled no_predict) ->
        model_mask MODEL_DIR name pil = inl RuntimeError)
  /\ (forall predict e,
        MODEL_DIR name = Some (pickled (with_predict predict)) ->
        predict (np_array (convert_RGB pil)) = inl e ->
        model_mask MODEL_DIR name pil = inl e)
  /\ (forall e, model_mask MODEL_DIR name pil = inl e ->
        shape (fallback_mask pil) = [height pil; width pil]
        /\ wf_array (fallback_mask pil)
        /\ Forall (fun v => v = 0%Z \/ v = 255%Z) (buf (fallback_mask pil))
        /\ exists after,
             process_local MODEL_DIR name pil = ok_200 after
             /\ apply_mask_and_save pil (fallback_mask pil) = inr after
             /\ width after = width pil /\ height after = height pil).
Proof.
  intros Hpil. repeat split.
  - intros H. unfold model_mask, load_pickle_model. now rewrite H.
  - intros H. unfold model_mask, load_pickle_model. now rewrite H.
  - intros H. unfold model_mask, load_pickle_model. now rewrite H.
  - intros predict e Hm He.
    rewrite (model_mask_with_predict MODEL_DIR name predict pil Hm), He.
    reflexivity.
  - now apply wf_fallback_mask.
  - apply binary_compute_mask.
  - destruct (apply_mask_same_size pil (fallback_mask pil) Hpil
                (shape_fallback_mask pil))
      as (after & Hafter & Hw & Hh & _).
    exists after.
    rewrite (process_local_fallback MODEL_DIR name pil e H), Hafter. auto.
Qed.

Lemma model_failure_falls_back_witness :
  exists after,
    @process_local binary64 single_precision no_models "segmenter.pkl" sample_image
    = ok_200 after
    /\ @apply_mask_and_save single_precision sample_image
         (@fallback_mask binary64 sample_image)
       = inr after.
Proof.
  destruct (model_failure_falls_back binary64 single_precision no_models
              "segmenter.pkl" sample_image eq_refl)
    as (Hmissing & _ & _ & _ & Hfall).
  destruct (Hfall FileNotFoundError (Hmissing eq_refl))
    as (_ & _ & _ & after & Hok & Happ & _).
  exists after. split; [exact Hok | exact Happ].
Defined.

(** C7.  When the model returns a three-dimensional array of shape
    (h, w, c) with at least one channel, whose integers are of 64 bits with
    their sign, the mask handed to the compositor is the h x w array of the first
    channel, cast to uint8; no other channel enters the result. *)
Theorem model_output_first_channel (A : Arithmetic) (P : Pillow)
    (MODEL_DIR : directory) (name : string)
    (predict : ndarray rgb -> result pyobj) (pil : image rgba)
    (a : ndarray number) (h w c : nat) :
  MODEL_DIR name = Some (pickled (with_predict predict)) ->
  predict (np_array (convert_RGB pil)) = inr (PyArray a) ->
  shape a = [h; w; c] -> 1 <= c ->
  wf_array a -> Forall fits_int64 (buf a) ->
  let cast := astype_uint8 (result_type (buf a)) in
  let mask :=
    mk_array [h; w]
      (tabulate2 h w (fun i j => cast (item3 (Int 0) a i j 0))) in
  model_mask MODEL_DIR name pil = inr mask
  /\ process_local MODEL_DIR name pil =
     match apply_mask_and_save pil mask with
     | inr after => ok_200 after
     | inl e => error_500 e
     end.
Proof.
  intros Hm Hp Hs Hc Hwf Hfit cast mask.
  assert (Hmask : model_mask MODEL_DIR name pil = inr mask).
  { rewrite (model_mask_with_predict MODEL_DIR name predict pil Hm), Hp.
    cbn [bind]. rewrite asarray_uint8_numeric, (elements_wf a Hwf)
      by (now rewrite (elements_wf a Hwf)).
    cbn [bind]. unfold ndim. cbn [shape]. rewrite Hs.
    cbn [length Nat.eqb]. unfold index_last0. cbn [shape buf rev app].
    destruct (Nat.eqb_spec c 0) as [->|_]; [inversion Hc|].
    unfold ret, mask, tabulate2. do 2 f_equal.
    cbn [size_of fold_right]. rewrite Nat.mul_1_r.
    apply map_ext_in. intros k Hk. apply in_seq in Hk.
    assert (Hw : w <> 0) by (intros ->; lia).
    unfold item3, cast. rewrite Hs, nth_map_astype.
    do 2 f_equal. rewrite (Nat.div_mod_eq k w) at 1. lia. }
  split; [exact Hmask|]. now apply process_local_model.
Qed.

Lemma model_output_first_channel_witness :
  model_mask (models_with two_channel_model) "segmenter.pkl" sample_image
  = inr (mk_array [2; 3] [10; 10; 10; 200; 10; 10]%Z).
Proof.
  apply (model_output_first_channel binary64 single_precision
           (models_with two_channel_model)
           "segmenter.pkl" _ sample_image _ 2 3 2 eq_refl eq_refl eq_refl
           (le_S 1 1 (le_n 1)) eq_refl).
  cbn. repeat (apply Forall_cons; [cbn; lia|]). apply Forall_nil.
Defined.

(** C10.  The cast of the model's output to uint8 does not clamp.  Where
    the integer part of every element is within 32 bits, and where the
    output is an array of integers of 64 bits with their sign, the mask is
    the integer part of each element modulo 256, and a mask of zeros and ones
    reaches the output as alpha values 0 and 1.  A float whose integer part
    is beyond 32 bits, like inf and nan, gives 0 and not its integer part
    modulo 256; an integer beyond 64 bits makes the cast raise, and the hook
    falls back. *)
Theorem model_output_cast_wraps (A : Arithmetic) (P : Pillow)
    (MODEL_DIR : directory) (name : string)
    (predict : ndarray rgb -> result pyobj) (pil : image rgba)
    (a : ndarray number) :
  weight_in_range P ->
  wf_image pil ->
  MODEL_DIR name = Some (pickled (with_predict predict)) ->
  predict (np_array (convert_RGB pil)) = inr (PyArray a) ->
  shape a = [height pil; width pil] -> wf_array a ->
  (Forall within_int32 (buf a) \/ Forall is_int64 (buf a) ->
   let mask :=
     mk_array (shape a) (map (fun v => (integer_part v mod 256)%Z) (buf a)) in
   model_mask MODEL_DIR name pil = inr mask
   /\ exists after,
        process_local MODEL_DIR name pil = ok_200 after
        /\ apply_mask_and_save pil mask = inr after
        /\ forall x y, x < width pil -> y < height pil ->
             alpha_of (getpixel transparent after x y) =
             getpixel 0%Z
               (gaussian_blur (mk_image (width pil) (height pil) (buf mask))) x y
             /\ (Forall (fun v => v = Int 0 \/ v = Int 1) (buf a) ->
                 Int (alpha_of (getpixel transparent after x y))
                 = item2 (Int 0) a y x))
  /\ (forall q, ~ within_int32 (Float q) ->
        astype_uint8 float64 (Float q) = 0%Z
        /\ astype_uint8 float64 NotFinite = 0%Z)
  /\ (forall v, In v (buf a) -> beyond_64_bits v ->
        model_mask MODEL_DIR name pil = inl OverflowError).
Proof.
  intros HP Hpil Hm Hp Hs Ha. split; [|split].
  - intros Hin mask.
    assert (Hbuf : buf mask = map (astype_uint8 (result_type (buf a))) (buf a)).
    { unfold mask. cbn [buf]. symmetry. apply map_ext_in. intros v Hv.
      destruct Hin as [Hin | Hin].
      - apply astype_uint8_within. exact (proj1 (Forall_forall _ _) Hin v Hv).
      - rewrite (result_type_int64 (buf a) Hin); [reflexivity|].
        intros E. rewrite E in Hv. exact Hv. }
    assert (Hwrap : map wrap8 (buf mask) = buf mask).
    { rewrite Hbuf, map_map. apply map_ext, wrap8_astype_uint8. }
    assert (Hmask : model_mask MODEL_DIR name pil = inr mask).
    { rewrite (model_mask_with_predict MODEL_DIR name predict pil Hm), Hp.
      cbn [bind]. rewrite asarray_uint8_numeric, (elements_wf a Ha).
      - cbn [bind]. unfold ndim. cbn [shape]. rewrite Hs.
        cbn [length Nat.eqb]. unfold ret. f_equal.
        change (mk_array [height pil; width pil]
                  (map (astype_uint8 (result_type (buf a))) (buf a))
                = mk_array (shape a) (buf mask)).
        now rewrite Hs, Hbuf.
      - rewrite (elements_wf a Ha).
        destruct Hin as [Hin | Hin]; (eapply Forall_impl; [|exact Hin]);
          [apply within_int32_fits | apply is_int64_fits]. }
    split; [exact Hmask|].
    assert (Hsm : shape mask = [height pil; width pil]) by exact Hs.
    assert (Hlen : length (buf mask) = height pil * width pil).
    { rewrite Hbuf, length_map. unfold wf_array in Ha. rewrite Ha, Hs. simpl. lia. }
    destruct (apply_mask_same_size pil mask Hpil Hsm)
      as (after & Hafter & _ & _ & Hpx).
    exists after. rewrite (process_local_model MODEL_DIR name pil mask Hmask), Hafter.
    split; [reflexivity|]. split; [reflexivity|].
    intros x y Hx Hy. rewrite (Hpx x y Hx Hy), Hwrap.
    split; [reflexivity|]. intros Hb.
    rewrite (gaussian_blur_binary HP).
    + unfold getpixel, item2, shape_hw. cbn [width pixels]. rewrite Hs. cbn [snd].
      rewrite Hbuf, nth_map_astype.
      assert (Hlt : y * width pil + x < length (buf a)).
      { rewrite Hbuf, length_map in Hlen. rewrite Hlen. now apply flat_index_lt. }
      destruct (proj1 (Forall_forall _ _) Hb _ (nth_In _ (Int 0) Hlt)) as [-> | ->];
        now destruct (result_type (buf a)).
    + exact Hlen.
    + cbn [pixels]. rewrite Hbuf. apply Forall_map.
      eapply Forall_impl; [|exact Hb].
      intros v [-> | ->]; [left|right]; now destruct (result_type (buf a)).
  - intros q Hq. cbn [within_int32] in Hq.
    cbn [astype_uint8 float64_to_uint8]. split; [|reflexivity].
    unfold int32.
    destruct (Z.leb_spec (- 2 ^ 31) (trunc q));
      destruct (Z.ltb_spec (trunc q) (2 ^ 31)); try reflexivity.
    exfalso. apply Hq. lia.
  - intros v Hin Hv.
    rewrite (model_mask_with_predict MODEL_DIR name predict pil Hm), Hp.
    cbn [bind]. rewrite (asarray_uint8_overflow a v); [reflexivity | | exact Hv].
    now rewrite (elements_wf a Ha).
Qed.

Lemma model_output_cast_wraps_witness :
  exists after,
    @process_local binary64 single_precision (models_with zero_one_model)
      "segmenter.pkl" sample_image
    = ok_200 after
    /\ Int (alpha_of (getpixel transparent after 0 1)) = Int 1.
Proof.
  destruct (model_output_cast_wraps binary64 single_precision
              (models_with zero_one_model) "segmenter.pkl" _ sample_image _
              weight_in_range_single eq_refl eq_refl eq_refl eq_refl eq_refl)
    as (Hwithin & _).
  assert (Hin : Forall within_int32
                  [Int 0; Int 0; Int 0; Int 1; Int 0; Int 0]).
  { repeat (apply Forall_cons; [cbn; lia|]). apply Forall_nil. }
  destruct (Hwithin (or_introl Hin)) as (_ & after & Hok & _ & Hpx).
  exists after. split; [exact Hok|].
  apply (proj2 (Hpx 0 1 (le_S 1 2 (le_S 1 1 (le_n 1))) (le_n 2))).
  repeat (apply Forall_cons; [first [left; reflexivity | right; reflexivity]|]).
  apply Forall_nil.
Defined.

(** The claim as it was stated fails at a float beyond 32 bits: the model
    returns 2^31 + 5 at every pixel, whose integer part modulo 256 is 5, and
    the mask is 0 at every pixel.  It fails at an integer beyond 64 bits as
    well: the cast raises, and the mask is the heuristic one. *)
Lemma model_output_cast_wraps_counterexample :
  model_mask (models_with large_float_model) "segmenter.pkl" sample_image
  = inr (mk_array [2; 3] [0; 0; 0; 0; 0; 0]%Z)
  /\ (integer_part (Float (inject_Z 2147483653)) mod 256 = 5)%Z
  /\ model_mask (models_with huge_integer_model) "segmenter.pkl" sample_image
     = inl OverflowError
  /\ (integer_part (Int (2 ^ 64 + 5)) mod 256 = 5)%Z.
Proof. repeat split; reflexivity. Qed.

(** The cast at some values outside 0..255 and at fractions, in an array of
    integers and in one of floats. *)
Example astype_uint8_values :
  map (astype_uint8 int64) [Int 256; Int 300; Int (-1); Int (2 ^ 40 + 5)]
  = [0; 44; 255; 5]%Z
  /\ map (astype_uint8 float64)
       [Float (5 # 2); Float (- (3 # 2)); Float (1023 # 2); Float (-300 # 1);
        Float (10000000000 # 1); Int (2 ^ 40 + 5); NotFinite]
     = [2; 255; 255; 212; 0; 0; 0]%Z
  /\ result_type [Int 1; Float (1 # 2)] = float64
  /\ result_type [Int 1; Int (2 ^ 64)] = object.
Proof. repeat split; reflexivity. Qed.

(** * Further properties of the model hook *)

(** X1.  A model output of two dimensions but of another size than the
    image, whose integers are of 64 bits with their sign, is not a failure of the
    hook: the compositor refuses it and the request is answered with the
    error. *)
Theorem other_size_model_output_is_an_error (A : Arithmetic) (P : Pillow)
    (MODEL_DIR : directory) (name : string)
    (predict : ndarray rgb -> result pyobj) (pil : image rgba)
    (a : ndarray number) (h w : nat) :
  MODEL_DIR name = Some (pickled (with_predict predict)) ->
  predict (np_array (convert_RGB pil)) = inr (PyArray a) ->
  shape a = [h; w] -> h <> height pil \/ w <> width pil ->
  Forall fits_int64 (elements a) ->
  process_local MODEL_DIR name pil = error_500 ValueError_images_do_not_match.
Proof.
  intros Hm Hp Hs Hne Hfit.
  set (mask := mk_array [h; w]
                 (map (astype_uint8 (result_type (elements a))) (buf a))).
  assert (Hmask : model_mask MODEL_DIR name pil = inr mask).
  { rewrite (model_mask_with_predict MODEL_DIR name predict pil Hm), Hp.
    cbn [bind]. rewrite (asarray_uint8_numeric a Hfit).
    cbn [bind]. unfold ndim. cbn [shape]. now rewrite Hs. }
  rewrite (process_local_model MODEL_DIR name pil _ Hmask).
  rewrite (apply_mask_and_save_2d pil mask h w eq_refl).
  rewrite putalpha_other_size; [reflexivity|].
  cbn [gaussian_blur transpose width height]. tauto.
Qed.

Lemma other_size_model_output_is_an_error_witness :
  @process_local binary64 single_precision
    (models_with (with_predict (fun _ => ret (PyArray (mk_array [1; 1] [Int 255])))))
    "segmenter.pkl" sample_image
  = error_500 ValueError_images_do_not_match.
Proof.
  apply (other_size_model_output_is_an_error binary64 single_precision _
           "segmenter.pkl" _ sample_image
           (mk_array [1; 1] [Int 255]) 1 1 eq_refl eq_refl eq_refl).
  - left. discriminate.
  - apply Forall_cons; [cbn; lia | apply Forall_nil].
Defined.

(** X2.  A three-dimensional model output without any channel has no first
    channel: indexing raises and the heuristic mask is used. *)
Theorem no_channel_model_output_falls_back (MODEL_DIR : directory) (name : string)
    (predict : ndarray rgb -> result pyobj) (pil : image rgba)
    (a : ndarray number) (h w : nat) :
  MODEL_DIR name = Some (pickled (with_predict predict)) ->
  predict (np_array (convert_RGB pil)) = inr (PyArray a) ->
  shape a = [h; w; 0] ->
  model_mask MODEL_DIR name pil = inl IndexError.
Proof.
  intros Hm Hp Hs.
  rewrite (model_mask_with_predict MODEL_DIR name predict pil Hm), Hp.
  assert (He : elements a = []).
  { unfold elements. rewrite Hs. cbn [size_of fold_right].
    now rewrite Nat.mul_0_l, !Nat.mul_0_r. }
  cbn [bind asarray_uint8]. rewrite He. cbn [result_type bind ret].
  unfold ndim, index_last0. cbn [shape].
  now rewrite Hs.
Qed.

Lemma no_channel_model_output_falls_back_witness :
  model_mask
    (models_with (with_predict (fun _ => ret (PyArray (mk_array [2; 3; 0] [])))))
    "segmenter.pkl" sample_image
  = inl IndexError.
Proof.
  exact (no_channel_model_output_falls_back _ "segmenter.pkl" _ sample_image
           (mk_array [2; 3; 0] []) 2 3 eq_refl eq_refl eq_refl).
Defined.

(** * Further properties of the blur and the compositor *)

(** A tap of three equal bytes returns that byte, whatever the weight. *)
Lemma box_tap_equal {P : Pillow} c :
  (0 <= c <= 255)%Z -> box_tap c c c = c.
Proof.
  intros Hc. unfold box_tap.
  replace (c * ww + (c + c) * fw)%Z with (c * (ww + 2 * fw))%Z by ring.
  unfold uint32, wrap8. rewrite Z.shiftr_div_pow2 by lia.
  change (Z.shiftl 1 23) with 8388608%Z.
  change (2 ^ 32)%Z with 4294967296%Z. change (2 ^ 24)%Z with 16777216%Z.
  destruct weights_sum as [-> | ->]; change (Z.shiftl 1 24) with 16777216%Z;
    Z.div_mod_to_equations; lia.
Qed.

Lemma gaussian_blur_uniform {P : Pillow} w h c :
  (0 <= c <= 255)%Z ->
  gaussian_blur (mk_image w h (repeat c (h * w))) =
  mk_image w h (repeat c (h * w)).
Proof.
  intros Hc. unfold gaussian_blur, three_passes.
  rewrite !horizontal_box_blur_const, !(box_tap_equal c Hc), transpose_const.
  rewrite !horizontal_box_blur_const, !(box_tap_equal c Hc), transpose_const.
  reflexivity.
Qed.

Section Range.
Context {P : Pillow}.
Hypothesis range : weight_in_range P.
Variables lo hi : Z.
Hypothesis bytes_lo_hi : (0 <= lo /\ hi <= 255)%Z.

(** A tap is a weighted mean, rounded: it lies between the least and the
    greatest of the three pixels. *)
Lemma box_tap_between a l r :
  between lo hi a -> between lo hi l -> between lo hi r ->
  between lo hi (box_tap a l r).
Proof.
  unfold between. intros Ha Hl Hr.
  unfold weight_in_range in range.
  change (2 ^ 23)%Z with 8388608%Z in range.
  change (2 ^ 24)%Z with 16777216%Z in range.
  assert (Hfw : (0 <= fw)%Z).
  { unfold fw. change (Z.shiftl 1 24) with 16777216%Z.
    Z.div_mod_to_equations. lia. }
  pose proof weights_sum as Hs. change (Z.shiftl 1 24) with 16777216%Z in Hs.
  assert (Hlow : (lo * (ww + 2 * fw) <= a * ww + (l + r) * fw)%Z) by nia.
  assert (Hup : (a * ww + (l + r) * fw <= hi * (ww + 2 * fw))%Z) by nia.
  assert (Hlo' : (lo * 16777216 - lo <= a * ww + (l + r) * fw)%Z) by nia.
  assert (Hhi' : (a * ww + (l + r) * fw <= hi * 16777216)%Z) by nia.
  unfold box_tap, uint32, wrap8. rewrite Z.shiftr_div_pow2 by lia.
  change (Z.shiftl 1 23) with 8388608%Z.
  change (2 ^ 32)%Z with 4294967296%Z. change (2 ^ 24)%Z with 16777216%Z.
  generalize dependent (a * ww + (l + r) * fw)%Z. intros bulk _ _ Hlo' Hhi'.
  Z.div_mod_to_equations. lia.
Qed.

Lemma horizontal_box_blur_between im :
  wf_image im -> Forall (between lo hi) (pixels im) ->
  Forall (between lo hi) (pixels (horizontal_box_blur im)).
Proof.
  intros Hwf Hb. unfold horizontal_box_blur. cbn [pixels].
  apply Forall_tabulate2. intros y x Hy Hx.
  apply box_tap_between; apply getpixel_in_range; try assumption; lia.
Qed.

Lemma wf_horizontal_box_blur im : wf_image (horizontal_box_blur im).
Proof. unfold wf_image. cbn. apply length_tabulate2. Qed.

Lemma three_passes_between im :
  wf_image im -> Forall (between lo hi) (pixels im) ->
  Forall (between lo hi) (pixels (three_passes im)).
Proof.
  intros Hwf Hb. unfold three_passes.
  repeat (apply horizontal_box_blur_between;
          [first [exact Hwf | apply wf_horizontal_box_blur]|]).
  exact Hb.
Qed.

Lemma gaussian_blur_between im :
  wf_image im -> Forall (between lo hi) (pixels im) ->
  Forall (between lo hi) (pixels (gaussian_blur im)).
Proof.
  intros Hwf Hb. unfold gaussian_blur.
  apply Forall_transpose; [apply wf_horizontal_box_blur|].
  apply three_passes_between; [apply wf_transpose|].
  apply Forall_transpose; [apply wf_horizontal_box_blur|].
  now apply three_passes_between.
Qed.

End Range.

(** Every pixel a pass writes is a byte. *)
Lemma horizontal_box_blur_bytes {P : Pillow} im :
  Forall (between 0 255) (pixels (horizontal_box_blur im)).
Proof.
  unfold horizontal_box_blur. cbn [pixels].
  apply Forall_tabulate2. intros y x _ _.
  unfold between, box_tap, wrap8. Z.div_mod_to_equations. lia.
Qed.

Lemma gaussian_blur_bytes {P : Pillow} im :
  Forall (between 0 255) (pixels (gaussian_blur im)).
Proof.
  unfold gaussian_blur. apply Forall_transpose.
  - apply wf_horizontal_box_blur.
  - apply horizontal_box_blur_bytes.
Qed.

Lemma putalpha_inr pil alpha out :
  putalpha pil alpha = inr out ->
  width alpha = width pil /\ height alpha = height pil.
Proof.
  unfold putalpha.
  destruct (Nat.eqb_spec (width alpha) (width pil));
    destruct (Nat.eqb_spec (height alpha) (height pil)); try discriminate.
  auto.
Qed.

Lemma apply_mask_fits {P : Pillow} pil mask :
  fits pil mask ->
  apply_mask_and_save pil mask =
  inr (mk_image (width pil) (height pil)
         (map set_alpha
            (combine (pixels pil)
               (pixels (gaussian_blur
                  (mk_image (width pil) (height pil) (map wrap8 (buf mask)))))))).
Proof.
  intros [Hs | [Hs Hw]]; unfold apply_mask_and_save; rewrite Hs;
    cbn [shape bind fromarray_L ret].
  - now rewrite putalpha_same_size.
  - rewrite putalpha_same_size; [|cbn; congruence|reflexivity].
    now rewrite Hw.
Qed.

Lemma apply_mask_not_fits {P : Pillow} pil mask :
  ~ fits pil mask ->
  exists e, apply_mask_and_save pil mask = inl e
    /\ (e = IndexError \/ e = many_axes
        \/ e = ValueError_images_do_not_match).
Proof.
  intros Hn. unfold apply_mask_and_save.
  destruct (shape mask) as [|h [|w [|c sh]]] eqn:Hs; cbn [shape bind fromarray_L ret].
  - exists IndexError. auto.
  - exists ValueError_images_do_not_match. split; [|auto].
    apply putalpha_other_size. cbn [gaussian_blur transpose width height].
    destruct (Nat.eq_dec 1 (width pil)) as [Hw|Hw]; [|now left].
    destruct (Nat.eq_dec h (height pil)) as [Hh|Hh]; [|now right].
    exfalso. apply Hn. right. split; congruence.
  - exists ValueError_images_do_not_match. split; [|auto].
    apply putalpha_other_size. cbn [gaussian_blur transpose width height].
    destruct (Nat.eq_dec w (width pil)) as [Hw|Hw]; [|now left].
    destruct (Nat.eq_dec h (height pil)) as [Hh|Hh]; [|now right].
    exfalso. apply Hn. left. congruence.
  - exists many_axes. auto.
Qed.

Lemma fits_dec pil mask : fits pil mask \/ ~ fits pil mask.
Proof.
  unfold fits.
  destruct (list_eq_dec Nat.eq_dec (shape mask) [height pil; width pil]);
    destruct (list_eq_dec Nat.eq_dec (shape mask) [height pil]);
    destruct (Nat.eq_dec (width pil) 1); tauto.
Qed.

Lemma fits_fallback_mask {A : Arithmetic} pil : fits pil (fallback_mask pil).
Proof. left. reflexivity. Qed.

(** What an accepted mask leaves of the image, and what it writes. *)
Lemma apply_mask_frame {P : Pillow} pil mask after :
  wf_image pil -> apply_mask_and_save pil mask = inr after ->
  width after = width pil /\ height after = height pil /\ wf_image after
  /\ forall x y, x < width pil -> y < height pil ->
       rgb_of (getpixel transparent after x y) = rgb_of (getpixel transparent pil x y)
       /\ between 0 255 (alpha_of (getpixel transparent after x y)).
Proof.
  intros Hwf Hok.
  destruct (fits_dec pil mask) as [Hf | Hf].
  - set (alpha := gaussian_blur
                    (mk_image (width pil) (height pil) (map wrap8 (buf mask)))).
    destruct (putalpha_pixels pil alpha Hwf (wf_gaussian_blur _) eq_refl eq_refl)
      as (out & Hout & Hw & Hh & Hwfo & Hpx).
    rewrite (apply_mask_fits pil mask Hf) in Hok.
    rewrite putalpha_same_size in Hout by reflexivity.
    fold alpha in Hok. rewrite Hok in Hout. injection Hout as ->.
    split; [exact Hw|]. split; [exact Hh|]. split; [exact Hwfo|].
    intros x y Hx Hy. split; [now apply Hpx|].
    rewrite (proj2 (Hpx x y Hx Hy)).
    apply getpixel_in_range; try assumption.
    + apply wf_gaussian_blur.
    + apply gaussian_blur_bytes.
  - destruct (apply_mask_not_fits pil mask Hf) as (e & He & _). congruence.
Qed.

Section Answers.
Context {A : Arithmetic} {P : Pillow}.

Lemma process_local_cases MODEL_DIR name pil :
  exists mask,
    (model_mask MODEL_DIR name pil = inr mask
     \/ (exists e, model_mask MODEL_DIR name pil = inl e) /\ mask = fallback_mask pil)
    /\ process_local MODEL_DIR name pil =
       match apply_mask_and_save pil mask with
       | inr after => ok_200 after
       | inl e' => error_500 e'
       end.
Proof.
  destruct (model_mask MODEL_DIR name pil) as [e | mask] eqn:Hm.
  - exists (fallback_mask pil). split; [right; eauto|].
    now apply process_local_fallback with (e := e).
  - exists mask. split; [now left|]. now apply process_local_model.
Qed.

End Answers.

Section UniformUpload.
Context {A : Arithmetic} {P : Pillow}.
Hypothesis laws : zero_laws A.
Hypothesis positive_thresh : greater thresh (of_int 0) = true.

Lemma fallback_mask_uniform pil c :
  wf_image pil -> Forall (fun p => rgb_of p = c) (pixels pil) -> uint8 c ->
  exact_mean A (Z.of_nat (length (corners (np_array (convert_RGB pil))))) ->
  fallback_mask pil =
  mk_array [height pil; width pil] (repeat 0%Z (height pil * width pil)).
Proof.
  intros Hwf Hc Hu Hn. unfold fallback_mask.
  apply (uniform_any_arithmetic laws (np_array (convert_RGB pil))
           (height pil) (width pil) c eq_refl (wf_np_array_RGB pil Hwf)).
  - cbn [np_array convert_RGB buf pixels]. apply Forall_map.
    eapply Forall_impl; [|exact Hc]. intros p Hp. now symmetry.
  - exact Hu.
  - exact Hn.
  - exact positive_thresh.
Qed.

Lemma process_local_uniform MODEL_DIR name pil c e :
  wf_image pil -> Forall (fun p => rgb_of p = c) (pixels pil) -> uint8 c ->
  exact_mean A (Z.of_nat (length (corners (np_array (convert_RGB pil))))) ->
  model_mask MODEL_DIR name pil = inl e ->
  exists after,
    process_local MODEL_DIR name pil = ok_200 after
    /\ forall x y, x < width pil -> y < height pil ->
         alpha_of (getpixel transparent after x y) = 0%Z.
Proof.
  intros Hwf Hc Hu Hn Hm.
  rewrite (process_local_fallback MODEL_DIR name pil e Hm).
  destruct (apply_mask_same_size pil (fallback_mask pil) Hwf
              (shape_fallback_mask pil))
    as (after & Hafter & _ & _ & Hpx).
  exists after. rewrite Hafter. split; [reflexivity|].
  intros x y Hx Hy. rewrite (Hpx x y Hx Hy).
  rewrite (fallback_mask_uniform pil c Hwf Hc Hu Hn). cbn [buf].
  rewrite map_repeat. change (wrap8 0) with 0%Z.
  rewrite gaussian_blur_uniform by lia.
  unfold getpixel. cbn [width pixels].
  apply nth_repeat_lt. now apply flat_index_lt.
Qed.

End UniformUpload.

Lemma positive_thresh_reals : @greater reals thresh (of_int 0) = true.
Proof.
  apply greater_reals. cbn [reals num of_int thresh]. apply IZR_lt. lia.
Qed.

Lemma positive_thresh_binary64 : @greater binary64 thresh (of_int 0) = true.
Proof. reflexivity. Qed.

(** X3.  The blur never leaves the range of the mask: when every pixel of
    the mask lies between two bytes, so does every pixel of the blurred
    mask, for every centre weight a radius below one half gives. *)
Theorem blur_stays_in_range (P : Pillow) (lo hi : Z) (im : image Z)
    (x y : nat) :
  weight_in_range P -> (0 <= lo)%Z -> (hi <= 255)%Z ->
  wf_image im -> Forall (between lo hi) (pixels im) ->
  x < width im -> y < height im ->
  between lo hi (getpixel 0%Z (gaussian_blur im) x y).
Proof.
  intros Hr Hlo Hhi Hwf Hb Hx Hy.
  apply getpixel_in_range; try assumption.
  - apply wf_gaussian_blur.
  - apply (gaussian_blur_between Hr lo hi (conj Hlo Hhi) im Hwf Hb).
Qed.

Lemma blur_stays_in_range_witness :
  between 100 200
    (getpixel 0%Z
       (@gaussian_blur single_precision
          (mk_image 3 2 [100; 200; 150; 120; 180; 100]%Z)) 1 1).
Proof.
  apply (blur_stays_in_range single_precision 100 200
           (mk_image 3 2 [100; 200; 150; 120; 180; 100]%Z) 1 1
           weight_in_range_single).
  - lia.
  - lia.
  - reflexivity.
  - unfold between. cbn [pixels].
    repeat (apply Forall_cons; [lia|]). apply Forall_nil.
  - cbn [width]. lia.
  - cbn [height]. lia.
Defined.

(** X4.  Whatever the model directory holds and whatever a model returns,
    an image answered with success has the size of the upload, the colour
    channels of the upload at every pixel, and a byte as alpha value. *)
Theorem success_keeps_size_and_colours (A : Arithmetic) (P : Pillow)
    (MODEL_DIR : directory) (name : string) (pil after : image rgba) :
  wf_image pil ->
  process_local MODEL_DIR name pil = ok_200 after ->
  width after = width pil /\ height after = height pil /\ wf_image after
  /\ forall x y, x < width pil -> y < height pil ->
       rgb_of (getpixel transparent after x y) = rgb_of (getpixel transparent pil x y)
       /\ between 0 255 (alpha_of (getpixel transparent after x y)).
Proof.
  intros Hwf Hok.
  destruct (process_local_cases MODEL_DIR name pil) as (mask & _ & Hp).
  rewrite Hp in Hok.
  destruct (apply_mask_and_save pil mask) as [e | out] eqn:Hout; [discriminate|].
  injection Hok as ->.
  exact (apply_mask_frame pil mask after Hwf Hout).
Qed.

Lemma success_keeps_size_and_colours_witness :
  rgb_of (getpixel transparent
            (mk_image 3 2 (repeat (128, 128, 128, 0)%Z 6)) 2 1)
  = rgb_of (getpixel transparent uniform_image 2 1).
Proof.
  apply (success_keeps_size_and_colours binary64 single_precision no_models
           "segmenter.pkl" uniform_image
           (mk_image 3 2 (repeat (128, 128, 128, 0)%Z 6)) eq_refl eq_refl).
  - cbn [width uniform_image]. lia.
  - cbn [height uniform_image]. lia.
Defined.

(** X5.  A request is answered with the error exactly when the model hook
    returned a mask the compositor does not accept: one that has neither the
    height and width of the image nor, for an image one pixel wide, its
    height as only axis.  The error is then one of three: the index error of
    a mask without axes, the error the version of Pillow raises for more than
    two axes, or images that do not match.  A failure of the hook itself
    never gives the error. *)
Theorem error_only_from_misshapen_model_output (A : Arithmetic) (P : Pillow)
    (MODEL_DIR : directory) (name : string) (pil : image rgba) :
  (forall e, process_local MODEL_DIR name pil = error_500 e ->
     (e = IndexError \/ e = many_axes
      \/ e = ValueError_images_do_not_match)
     /\ exists mask, model_mask MODEL_DIR name pil = inr mask /\ ~ fits pil mask)
  /\ (forall mask, model_mask MODEL_DIR name pil = inr mask -> ~ fits pil mask ->
        exists e, process_local MODEL_DIR name pil = error_500 e).
Proof.
  split.
  - intros e He.
    destruct (process_local_cases MODEL_DIR name pil) as (mask & Hmask & Hp).
    rewrite Hp in He.
    destruct (fits_dec pil mask) as [Hf | Hf].
    + rewrite (apply_mask_fits pil mask Hf) in He. discriminate.
    + destruct (apply_mask_not_fits pil mask Hf) as (e' & He' & Hcases).
      rewrite He' in He. injection He as <-. split; [exact Hcases|].
      destruct Hmask as [Hm | [_ ->]].
      * exists mask. auto.
      * exfalso. apply Hf, fits_fallback_mask.
  - intros mask Hm Hf.
    destruct (apply_mask_not_fits pil mask Hf) as (e & He & _).
    exists e. now rewrite (process_local_model MODEL_DIR name pil mask Hm), He.
Qed.

(** A mask of four axes, with a version of Pillow that looks the type of
    the array up first: the error is the TypeError. *)
Lemma error_only_from_misshapen_model_output_witness :
  @process_local binary64 (type_first single_precision)
    (models_with four_axes_model) "segmenter.pkl" sample_image
  = error_500 TypeError
  /\ exists mask,
       model_mask (models_with four_axes_model) "segmenter.pkl" sample_image
       = inr mask
       /\ ~ fits sample_image mask.
Proof.
  split; [reflexivity|].
  apply (proj1 (error_only_from_misshapen_model_output binary64
                  (type_first single_precision) (models_with four_axes_model)
                  "segmenter.pkl" sample_image)
               TypeError).
  reflexivity.
Defined.

(** X6.  An upload of one colour, whatever its alpha band, comes back fully
    transparent when the model hook fails: the answer is the success and the
    alpha value is 0 at every pixel.  Over the reals for every such image,
    in binary64 for those whose smaller side is below 20000 pixels. *)
Theorem uniform_upload_comes_back_transparent (P : Pillow)
    (MODEL_DIR : directory) (name : string) (pil : image rgba) (c : rgb)
    (e : exn) :
  wf_image pil -> 1 <= height pil -> 1 <= width pil ->
  Forall (fun p => rgb_of p = c) (pixels pil) -> uint8 c ->
  model_mask MODEL_DIR name pil = inl e ->
  (exists after,
     @process_local reals P MODEL_DIR name pil = ok_200 after
     /\ forall x y, x < width pil -> y < height pil ->
          alpha_of (getpixel transparent after x y) = 0%Z)
  /\ (Nat.min (height pil) (width pil) < 20 * 1000 ->
      exists after,
        @process_local binary64 P MODEL_DIR name pil = ok_200 after
        /\ forall x y, x < width pil -> y < height pil ->
             alpha_of (getpixel transparent after x y) = 0%Z).
Proof.
  intros Hwf Hh Hw Hc Hu Hm. split.
  - apply (process_local_uniform zero_laws_reals positive_thresh_reals
             MODEL_DIR name pil c e Hwf Hc Hu); [|exact Hm].
    apply exact_mean_reals.
    rewrite (length_corners (np_array (convert_RGB pil)) (height pil) (width pil)
               eq_refl).
    cbv zeta.
    set (m := Nat.max 5 (Nat.min (height pil) (width pil) / 20)).
    assert (1 <= Nat.min m (height pil)) by lia.
    assert (1 <= Nat.min m (width pil)) by lia.
    nia.
  - intros Hb.
    apply (process_local_uniform zero_laws_binary64 positive_thresh_binary64
             MODEL_DIR name pil c e Hwf Hc Hu); [|exact Hm].
    exact (exact_mean_binary64 (np_array (convert_RGB pil)) (height pil) (width pil)
             eq_refl Hh Hw Hb).
Qed.

Lemma uniform_upload_comes_back_transparent_witness :
  exists after,
    @process_local reals single_precision no_models "segmenter.pkl" uniform_image
    = ok_200 after
    /\ forall x y, x < 3 -> y < 2 ->
         alpha_of (getpixel transparent after x y) = 0%Z.
Proof.
  apply (uniform_upload_comes_back_transparent single_precision no_models
           "segmenter.pkl" uniform_image (128, 128, 128)%Z FileNotFoundError
           eq_refl).
  - cbn [height uniform_image]. lia.
  - cbn [width uniform_image]. lia.
  - cbn [pixels uniform_image repeat].
    repeat (apply Forall_cons; [reflexivity|]). apply Forall_nil.
  - unfold uint8, red, green, blue. cbn [fst snd]. lia.
  - reflexivity.
Defined.
(** * File names *)

Lemma contains_In c s : contains c s = true <-> In c s.
Proof.
  unfold contains. rewrite existsb_exists. split.
  - intros (x & Hin & Hx). apply Ascii.eqb_eq in Hx. now subst.
  - intros Hin. exists c. split; [assumption|]. apply Ascii.eqb_refl.
Qed.

Lemma contains_false c s : contains c s = false <-> ~ In c s.
Proof.
  rewrite <- contains_In. destruct (contains c s); split; congruence.
Qed.

Lemma str_eqb_eq a b : str_eqb a b = true <-> a = b.
Proof.
  unfold str_eqb. destruct (list_eq_dec ascii_dec a b); split; congruence.
Qed.

Lemma in_set_In x s : in_set x s = true <-> In x s.
Proof.
  unfold in_set. rewrite existsb_exists. split.
  - intros (y & Hin & Hy). apply str_eqb_eq in Hy. now subst.
  - intros Hin. exists x. split; [assumption|]. now apply str_eqb_eq.
Qed.

(** The two outcomes of [rsplit]. *)
Lemma rsplit1_cases sep s :
  (rsplit1 sep s = [s] /\ ~ In sep s)
  \/ exists h t, rsplit1 sep s = [h; t] /\ s = h ++ sep :: t /\ ~ In sep t.
Proof.
  induction s as [|c s IH].
  - left. split; [reflexivity | intros []].
  - cbn [rsplit1]. destruct IH as [[-> Hn] | (h & t & -> & -> & Hn)].
    + destruct (Ascii.eqb_spec c sep) as [-> | Hc].
      * right. exists [], s. auto.
      * left. split; [reflexivity|]. intros [H | H]; [congruence | tauto].
    + right. exists (c :: h), t. auto.
Qed.

Lemma rsplit1_app sep h t :
  ~ In sep t -> rsplit1 sep (h ++ sep :: t) = [h; t].
Proof.
  intros Hn.
  destruct (rsplit1_cases sep (h ++ sep :: t)) as [[_ H] | (h' & t' & -> & He & Hn')].
  - exfalso. apply H, in_elt.
  - assert (Ht : t = t' /\ h = h'); [|now destruct Ht as [-> ->]].
    clear - He Hn Hn'. revert h' He. induction h as [|c h IH]; intros h' He.
    + destruct h' as [|c' h']; cbn in He.
      * injection He as ->. auto.
      * injection He as <- ->. exfalso. apply Hn, in_elt.
    + destruct h' as [|c' h']; cbn in He.
      * injection He as -> <-. exfalso. apply Hn', in_elt.
      * injection He as -> He. destruct (IH h' He) as [-> ->]. auto.
Qed.

Lemma rsplit1_none sep s : ~ In sep s -> rsplit1 sep s = [s].
Proof.
  intros Hn.
  destruct (rsplit1_cases sep s) as [[H _] | (h & t & _ & -> & _)];
    [exact H|].
  exfalso. apply Hn, in_elt.
Qed.

Lemma allowed_file_app stem ext :
  ~ In "."%char ext ->
  allowed_file (stem ++ "."%char :: ext) = inr (in_set (lower ext) ALLOWED_EXT).
Proof.
  intros Hn. unfold allowed_file.
  rewrite (proj2 (contains_In _ _) (in_elt _ stem ext)).
  now rewrite (rsplit1_app _ stem ext Hn).
Qed.

Lemma allowed_file_no_dot s :
  ~ In "."%char s -> allowed_file s = inr false.
Proof.
  intros Hn. unfold allowed_file.
  now rewrite (proj2 (contains_false _ _) Hn).
Qed.

(** X7.  [allowed_file] never raises, and it accepts a name exactly when the
    name ends with a dot followed by png, jpg, jpeg or webp in any case:
    only the text after the last dot counts, and a name without a dot is
    refused. *)
Theorem allowed_file_last_extension (name : str) :
  (allowed_file name = inr true \/ allowed_file name = inr false)
  /\ (allowed_file name = inr true <->
      exists stem ext,
        name = stem ++ "."%char :: ext /\ ~ In "."%char ext
        /\ In (lower ext) ALLOWED_EXT).
Proof.
  destruct (rsplit1_cases "." name) as [[_ Hn] | (h & t & _ & -> & Hn)].
  - rewrite (allowed_file_no_dot name Hn). split; [now right|].
    split; [discriminate|].
    intros (stem & ext & -> & _). exfalso. apply Hn, in_elt.
  - rewrite (allowed_file_app h t Hn). split.
    + destruct (in_set (lower t) ALLOWED_EXT); auto.
    + split.
      * intros H. exists h, t. repeat split; try assumption.
        apply in_set_In. congruence.
      * intros (stem & ext & He & Hn' & Hin).
        pose proof (rsplit1_app "." h t Hn) as H1.
        rewrite He, (rsplit1_app "." stem ext Hn') in H1.
        injection H1 as _ ->. f_equal. now apply in_set_In.
Qed.

Lemma allowed_file_last_extension_witness :
  allowed_file (chars "holiday.photo.JPeG") = inr true.
Proof.
  apply (proj2 (allowed_file_last_extension (chars "holiday.photo.JPeG"))).
  exists (chars "holiday.photo"), (chars "JPeG").
  split; [reflexivity|]. split.
  - apply contains_false. reflexivity.
  - right. right. left. reflexivity.
Defined.

(** ** Characters *)

Ltac every_char c :=
  destruct c as [[] [] [] [] [] [] [] []]; vm_compute; intuition congruence.

Lemma letter_facts c :
  is_letter c = true ->
  is_space c = false /\ kept c = true /\ solid c = true
  /\ contains c (chars "._") = false /\ c <> "."%char /\ c <> "/"%char.
Proof. every_char c. Qed.

Lemma solid_facts c :
  solid c = true ->
  is_space c = false /\ kept c = true /\ contains c (chars "._") = false
  /\ c <> "/"%char.
Proof. every_char c. Qed.

Lemma kept_not_solid c :
  kept c = true -> solid c = false -> contains c (chars "._") = true.
Proof. every_char c. Qed.

Lemma lower_char_letter c : is_lower (lower_char c) = true -> is_letter c = true.
Proof.
  unfold lower_char, is_letter. destruct (is_upper c); [reflexivity|].
  now intros ->.
Qed.

Lemma allowed_letters ext :
  In (lower ext) ALLOWED_EXT ->
  Forall (fun c => is_letter c = true) ext /\ ext <> [].
Proof.
  intros Hin.
  assert (H : Forall (fun c => is_lower c = true) (lower ext) /\ lower ext <> []).
  { unfold ALLOWED_EXT in Hin. cbn [In] in Hin.
    destruct Hin as [<- | [<- | [<- | [<- | []]]]];
      (split; [repeat constructor | discriminate]). }
  destruct H as [Hl Hne]. split.
  - unfold lower in Hl. apply Forall_map in Hl.
    eapply Forall_impl; [|exact Hl]. intros c. apply lower_char_letter.
  - intros ->. now apply Hne.
Qed.

(** ** split and join *)

Lemma existsb_rev {A : Type} (f : A -> bool) l :
  existsb f (rev l) = existsb f l.
Proof.
  induction l as [|x l IH]; [reflexivity|].
  cbn [rev existsb]. rewrite existsb_app, IH. cbn [existsb].
  now rewrite orb_false_r, orb_comm.
Qed.

Lemma split_from_word word t :
  Forall (fun c => is_space c = false) t -> rev word ++ t <> [] ->
  split_from word t = [rev word ++ t].
Proof.
  revert word. induction t as [|c t IH]; intros word Hs Hne.
  - rewrite app_nil_r in *. destruct word; [cbn in Hne; congruence | reflexivity].
  - inversion Hs as [|? ? Hc Ht]; subst. cbn [split_from]. rewrite Hc.
    rewrite IH; [| assumption |].
    + cbn [rev]. now rewrite <- app_assoc.
    + cbn [rev]. rewrite <- app_assoc. now destruct (rev word).
Qed.

Lemma join_cons sep x l :
  l <> [] -> join sep (x :: l) = x ++ sep ++ join sep l.
Proof. destruct l; [congruence | reflexivity]. Qed.

(** The text before a last word that holds no white space: the words are
    joined in front of it, and nothing solid is lost or gained. *)
Lemma join_split_app t :
  Forall (fun c => is_space c = false) t -> t <> [] ->
  forall s word,
    exists pre,
      join (chars "_") (split_from word (s ++ t)) = pre ++ t
      /\ existsb solid pre = existsb solid word || existsb solid s.
Proof.
  intros Hs Hne. induction s as [|c s IH]; intros word.
  - cbn [app]. rewrite split_from_word; [| assumption | now destruct (rev word)].
    exists (rev word). split; [reflexivity|].
    rewrite existsb_rev. cbn. now rewrite orb_false_r.
  - cbn [app split_from existsb]. destruct (is_space c) eqn:Hc.
    + assert (Hsolid : solid c = false)
        by (destruct (solid c) eqn:E; [apply solid_facts in E|]; intuition congruence).
      rewrite Hsolid. cbn [orb].
      destruct (IH []) as (pre & Hj & He). cbn [existsb orb] in He.
      destruct word as [|w word].
      * exists pre. split; [exact Hj|]. exact He.
      * exists (rev (w :: word) ++ chars "_" ++ pre). split.
        -- rewrite join_cons.
           ++ rewrite Hj. now rewrite <- !app_assoc.
           ++ intros E. rewrite E in Hj. cbn [join] in Hj.
              symmetry in Hj. apply app_eq_nil in Hj. tauto.
        -- rewrite !existsb_app, existsb_rev, He. cbn.
           now rewrite orb_false_r.
    + destruct (IH (c :: word)) as (pre & Hj & He).
      exists pre. split; [exact Hj|]. rewrite He. cbn [existsb].
      destruct (solid c), (existsb solid word), (existsb solid s); reflexivity.
Qed.

(** ** strip *)

Lemma lstrip_all set p q :
  Forall (fun c => contains c set = true) p -> lstrip set (p ++ q) = lstrip set q.
Proof.
  induction 1 as [|c p Hc _ IH]; [reflexivity|].
  cbn [app lstrip]. now rewrite Hc.
Qed.

Lemma lstrip_stop set p q :
  existsb (fun c => negb (contains c set)) p = true ->
  exists c x, lstrip set (p ++ q) = c :: x ++ q.
Proof.
  induction p as [|c p IH]; [discriminate|].
  cbn [existsb app lstrip]. destruct (contains c set); cbn [negb orb].
  - exact IH.
  - intros _. now exists c, p.
Qed.

Lemma rstrip_last set s c :
  contains c set = false -> rstrip set (s ++ [c]) = s ++ [c].
Proof.
  intros Hc. unfold rstrip. rewrite rev_app_distr. cbn [rev app lstrip].
  rewrite Hc. cbn [rev]. now rewrite rev_involutive.
Qed.

Lemma filter_all {A : Type} (f : A -> bool) l :
  Forall (fun x => f x = true) l -> filter f l = l.
Proof.
  induction 1 as [|x l Hx _ IH]; [reflexivity|].
  cbn [filter]. now rewrite Hx, IH.
Qed.

Lemma existsb_solid_kept l :
  existsb solid (filter kept l) = existsb solid l.
Proof.
  induction l as [|c l IH]; [reflexivity|].
  cbn [filter existsb]. destruct (solid c) eqn:Hs.
  - now rewrite (proj1 (proj2 (solid_facts c Hs))); cbn [existsb]; rewrite Hs.
  - destruct (kept c); cbn [existsb]; rewrite ?Hs; exact IH.
Qed.

Lemma existsb_solid_replace l :
  existsb solid (replace "/" " " l) = existsb solid l.
Proof.
  unfold replace. induction l as [|c l IH]; [reflexivity|].
  cbn [map existsb]. rewrite IH. f_equal.
  destruct (Ascii.eqb_spec c "/") as [-> | _]; reflexivity.
Qed.

Lemma replace_letters l :
  Forall (fun c => is_letter c = true) l -> replace "/" " " l = l.
Proof.
  unfold replace. induction 1 as [|c l Hc _ IH]; [reflexivity|].
  cbn [map]. rewrite IH.
  destruct (Ascii.eqb_spec c "/") as [E | _]; [|reflexivity].
  now apply letter_facts in Hc.
Qed.

(** ** secure_filename on an accepted name *)

(** The extension survives; the part before it survives when it holds a
    letter, a digit or a hyphen, and vanishes with its dot otherwise. *)
Lemma secure_filename_allowed stem ext :
  In (lower ext) ALLOWED_EXT ->
  (existsb solid stem = false ->
     secure_filename (stem ++ "."%char :: ext) = ext)
  /\ (existsb solid stem = true ->
        exists x, secure_filename (stem ++ "."%char :: ext) = x ++ "."%char :: ext).
Proof.
  intros Hin. destruct (allowed_letters ext Hin) as [Hl Hne].
  destruct (exists_last Hne) as (ext' & e & Hext).
  assert (He : contains e (chars "._") = false).
  { rewrite Hext in Hl. apply Forall_app in Hl. destruct Hl as [_ Hl].
    inversion Hl; subst. now apply letter_facts. }
  assert (Hfirst : lstrip (chars "._") ("."%char :: ext) = ext).
  { destruct ext as [|c ext0]; [congruence|].
    inversion Hl; subst.
    assert (Hdot : contains "." (chars "._") = true) by reflexivity.
    assert (Hc : contains c (chars "._") = false) by now apply letter_facts.
    cbn [lstrip]. now rewrite Hdot, Hc. }
  unfold secure_filename, split, replace.
  rewrite map_app. cbn [map]. change (Ascii.eqb "." "/") with false. cbn iota.
  fold (replace "/" " " stem). fold (replace "/" " " ext).
  rewrite (replace_letters ext Hl).
  destruct (join_split_app ("."%char :: ext)) with (s := replace "/" " " stem)
    (word := @nil ascii) as (pre & Hj & Hpre).
  { constructor; [reflexivity|].
    eapply Forall_impl; [|exact Hl]. intros c Hc. now apply letter_facts. }
  { discriminate. }
  rewrite Hj, filter_app. cbn [filter]. change (kept ".") with true. cbn iota.
  rewrite (filter_all kept ext)
    by (eapply Forall_impl; [|exact Hl]; intros c Hc; now apply letter_facts).
  cbn [existsb orb] in Hpre. rewrite existsb_solid_replace in Hpre.
  rewrite <- (existsb_solid_kept pre) in Hpre. rewrite <- Hpre.
  set (p := filter kept pre). unfold strip. split; intros Hsolid.
  - rewrite lstrip_all.
    + rewrite Hfirst, Hext. rewrite rstrip_last by exact He. reflexivity.
    + apply Forall_forall. intros c Hc. apply kept_not_solid.
      * unfold p in Hc. now apply filter_In in Hc.
      * destruct (solid c) eqn:E; [|reflexivity].
        rewrite <- Hsolid. symmetry. apply existsb_exists. now exists c.
  - destruct (lstrip_stop (chars "._") p ("."%char :: ext)) as (c & x & Hx).
    { apply existsb_exists in Hsolid. destruct Hsolid as (c & Hc & Hs).
      apply existsb_exists. exists c. split; [exact Hc|].
      apply solid_facts in Hs. destruct Hs as (_ & _ & -> & _). reflexivity. }
    exists (c :: x). rewrite Hx, Hext.
    replace (c :: x ++ "."%char :: ext' ++ [e])
      with ((c :: x ++ "."%char :: ext') ++ [e])
      by (cbn [app]; now rewrite <- app_assoc).
    rewrite rstrip_last by exact He. cbn [app]. now rewrite <- app_assoc.
Qed.

(** X8.  A name [allowed_file] accepts is stored under the random name
    followed by its extension in lower case, one of png, jpg, jpeg and webp,
    when a letter, a digit or a hyphen stands before its last dot.  When none
    does, [secure_filename] strips the dot with what precedes it and
    [save_upload] raises IndexError, although the name was accepted.  For
    names of ASCII characters. *)
Theorem save_upload_after_validation (hex stem ext : str) (data : octets)
    (dir : folder) :
  Forall (fun c => is_ascii c = true) stem ->
  In (lower ext) ALLOWED_EXT ->
  let file := mk_file (stem ++ "."%char :: ext) data in
  let uid := hex ++ "."%char :: lower ext in
  allowed_file (filename file) = inr true
  /\ save_upload hex file dir =
     if existsb solid stem
     then inr (uid, write uid (Octets data) dir)
     else inl IndexError.
Proof.
  intros _ Hin file uid.
  destruct (allowed_letters ext Hin) as [Hl Hne].
  assert (Hdot : ~ In "."%char ext).
  { intros Hd. apply (proj1 (Forall_forall _ _) Hl) in Hd.
    now apply letter_facts in Hd. }
  split.
  - unfold file. cbn [filename]. rewrite (allowed_file_app stem ext Hdot).
    f_equal. now apply in_set_In.
  - unfold save_upload, file. cbn [filename stream].
    destruct (secure_filename_allowed stem ext Hin) as [Hnone Hsome].
    destruct (existsb solid stem).
    + destruct (Hsome eq_refl) as (x & ->).
      now rewrite (rsplit1_app _ x ext Hdot).
    + rewrite (Hnone eq_refl), (rsplit1_none _ ext Hdot). reflexivity.
Qed.

Lemma save_upload_after_validation_witness :
  save_upload (chars "0f3a") (mk_file (chars "my cat.PNG") []) []
  = inr (chars "0f3a.png", [(chars "0f3a.png", Octets [])])
  /\ save_upload (chars "0f3a") (mk_file (chars ".png") []) [] = inl IndexError.
Proof.
  split.
  - apply (save_upload_after_validation (chars "0f3a") (chars "my cat")
             (chars "PNG") [] []).
    + repeat constructor.
    + left. reflexivity.
  - apply (save_upload_after_validation (chars "0f3a") [] (chars "png") [] []).
    + constructor.
    + left. reflexivity.
Defined.

(** ** The stored name *)

Lemma plain_lower_char c :
  kept c = true -> c <> "."%char -> plain (lower_char c) = true.
Proof. every_char c. Qed.

Lemma plain_facts c :
  plain c = true -> c <> "/"%char /\ c <> "."%char /\ is_ascii c = true.
Proof. every_char c. Qed.

Lemma Forall_lstrip (Q : ascii -> Prop) set s :
  Forall Q s -> Forall Q (lstrip set s).
Proof.
  induction 1 as [|c s Hc Hs IH]; [constructor|].
  cbn [lstrip]. destruct (contains c set); [exact IH | now constructor].
Qed.

Lemma Forall_strip (Q : ascii -> Prop) set s :
  Forall Q s -> Forall Q (strip set s).
Proof.
  intros H. unfold strip, rstrip.
  apply Forall_rev, Forall_lstrip, Forall_rev, Forall_lstrip, H.
Qed.

Lemma Forall_secure_filename name :
  Forall (fun c => kept c = true) (secure_filename name).
Proof.
  unfold secure_filename. apply Forall_strip, Forall_forall.
  intros c Hc. now apply filter_In in Hc.
Qed.

(** X9.  Whatever name the client sends, an upload that is stored is
    stored under the random name, a dot, and an extension made of lower-case
    letters, digits, underscores and hyphens: the stored name takes no path
    separator and no further dot from the client.  For names of ASCII
    characters. *)
Theorem stored_name_has_plain_extension (hex name : str) (data : octets)
    (dir dir' : folder) (uid : str) :
  Forall (fun c => is_ascii c = true) name ->
  save_upload hex (mk_file name data) dir = inr (uid, dir') ->
  exists ext,
    uid = hex ++ "."%char :: ext
    /\ Forall (fun c => plain c = true) ext
    /\ ~ In "/"%char ext /\ ~ In "."%char ext
    /\ dir' = write uid (Octets data) dir.
Proof.
  intros _. unfold save_upload. cbn [filename stream].
  pose proof (Forall_secure_filename name) as Hk.
  destruct (rsplit1_cases "." (secure_filename name))
    as [[-> _] | (h & t & -> & He & Hn)]; [discriminate|].
  cbn [item nth_error bind ret]. intros [= <- <-].
  rewrite He in Hk. apply Forall_app in Hk. destruct Hk as [_ Hk].
  inversion Hk as [|? ? _ Ht]; subst.
  assert (Hp : Forall (fun c => plain c = true) (lower t)).
  { unfold lower. apply Forall_map, Forall_forall. intros c Hc.
    apply plain_lower_char.
    - exact (proj1 (Forall_forall _ _) Ht c Hc).
    - intros ->. now apply Hn. }
  exists (lower t). repeat split; try assumption.
  - intros Hin. apply (proj1 (Forall_forall _ _) Hp) in Hin.
    now apply plain_facts in Hin.
  - intros Hin. apply (proj1 (Forall_forall _ _) Hp) in Hin.
    now apply plain_facts in Hin.
Qed.

Lemma stored_name_has_plain_extension_witness :
  exists ext,
    chars "0f3a.gz" = chars "0f3a" ++ "."%char :: ext
    /\ Forall (fun c => plain c = true) ext
    /\ ~ In "/"%char ext /\ ~ In "."%char ext
    /\ [(chars "0f3a.gz", Octets [])] = write (chars "0f3a.gz") (Octets []) [].
Proof.
  apply (stored_name_has_plain_extension (chars "0f3a")
           (chars "../../etc/cron.d/job.tar.GZ") [] []
           [(chars "0f3a.gz", Octets [])] (chars "0f3a.gz")).
  - repeat constructor.
  - reflexivity.
Defined.

(** * The folders *)

Lemma lookup_write_same name c d : lookup name (write name c d) = Some c.
Proof.
  unfold lookup, write. cbn [find fst snd].
  now rewrite (proj2 (str_eqb_eq name name) eq_refl).
Qed.

Lemma lookup_write_other name name' c d :
  name' <> name -> lookup name' (write name c d) = lookup name' d.
Proof.
  intros Hne. unfold lookup, write. cbn [find fst snd].
  destruct (str_eqb name name') eqn:E;
    [apply str_eqb_eq in E; congruence|].
  f_equal. clear E. induction d as [|[n x] d IH]; [reflexivity|].
  cbn [filter find fst]. destruct (str_eqb n name) eqn:E1; cbn [negb].
  - apply str_eqb_eq in E1. subst n.
    destruct (str_eqb name name') eqn:E2;
      [apply str_eqb_eq in E2; congruence | exact IH].
  - cbn [find fst]. destruct (str_eqb n name'); [reflexivity | exact IH].
Qed.

Lemma read_write name data d : read name (write name (Octets data) d) = inr data.
Proof. unfold read. now rewrite lookup_write_same. Qed.

(** * The views *)

Lemma invalid_file_rejected file :
  allowed_file (filename file) = inr false -> invalid_file file = inr true.
Proof.
  intros H. unfold invalid_file. rewrite H. now destruct (filename file).
Qed.

Lemma invalid_file_accepted file :
  allowed_file (filename file) = inr true -> invalid_file file = inr false.
Proof.
  intros H. unfold invalid_file. rewrite H.
  destruct (filename file) eqn:E; [discriminate | reflexivity].
Qed.

Section ViewLemmas.
Context {A : Arithmetic} {P : Pillow}.
Variable decode : octets -> result (image rgba).
Variable MODEL_DIR : directory.
Variable environ : string -> option string.
Variable post : http_call -> http_outcome.
Variable watermark : string -> octets -> result octets.

(** The local view once the upload is stored under [uid]. *)
Lemma process_local_view_stored hex hex' req d file uid :
  files_image req = Some file ->
  allowed_file (filename file) = inr true ->
  save_upload hex file (UPLOAD_DIR d)
  = inr (uid, write uid (Octets (stream file)) (UPLOAD_DIR d)) ->
  let stored := mk_disk (write uid (Octets (stream file)) (UPLOAD_DIR d))
                        (RESULT_DIR d) in
  process_local_view decode MODEL_DIR hex hex' req d =
  match decode (stream file) with
  | inl e => (inl e, stored)
  | inr pil =>
      match process_local MODEL_DIR (form_get req "model" "segmenter.pkl") pil with
      | ok_200 after =>
          (inr (json_200 (static "/static/uploads/" uid)
                         (static "/static/results/" (hex' ++ chars ".png"))),
           mk_disk (UPLOAD_DIR stored)
             (write (hex' ++ chars ".png") (PNG after) (RESULT_DIR d)))
      | error_500 e => (inr (json_500 e), stored)
      end
  end.
Proof.
  intros Hf Hok Hs stored. unfold process_local_view.
  rewrite Hf, (invalid_file_accepted file Hok), Hs, read_write.
  cbn [bind]. destruct (decode (stream file)); reflexivity.
Qed.

Lemma process_api_view_stored hex hex' req d file uid :
  files_image req = Some file ->
  allowed_file (filename file) = inr true ->
  save_upload hex file (UPLOAD_DIR d)
  = inr (uid, write uid (Octets (stream file)) (UPLOAD_DIR d)) ->
  let stored := mk_disk (write uid (Octets (stream file)) (UPLOAD_DIR d))
                        (RESULT_DIR d) in
  process_api_view environ post watermark hex hex' req d =
  match call_provider environ post watermark
          (form_get req "provider" "remove.bg") (stream file) with
  | (inr out_bytes, sent) =>
      (inr (json_200 (static "/static/uploads/" uid)
                     (static "/static/results/" (hex' ++ chars ".png"))),
       mk_disk (UPLOAD_DIR stored)
         (write (hex' ++ chars ".png") (Octets out_bytes) (RESULT_DIR d)),
       sent)
  | (inl e, sent) => (inr (json_500 e), stored, sent)
  end.
Proof.
  intros Hf Hok Hs stored. unfold process_api_view.
  rewrite Hf, (invalid_file_accepted file Hok), Hs, read_write.
  reflexivity.
Qed.

End ViewLemmas.

(** X10.  A request without an image part, or whose file name [allowed_file]
    refuses, is answered by both views with the status 400; nothing is
    written to either folder and no provider is contacted.  The test for the
    empty name adds nothing: [allowed_file] refuses it. *)
Theorem rejected_request_writes_nothing (A : Arithmetic) (P : Pillow)
    (decode : octets -> result (image rgba)) (MODEL_DIR : directory)
    (environ : string -> option string) (post : http_call -> http_outcome)
    (watermark : string -> octets -> result octets)
    (hex hex' : str) (req : request) (d : disk) :
  (forall file, files_image req = Some file ->
     allowed_file (filename file) = inr false) ->
  let error := match files_image req with
               | None => "No image uploaded"%string
               | Some _ => "Invalid file"%string
               end in
  process_local_view decode MODEL_DIR hex hex' req d = (inr (json_400 error), d)
  /\ process_api_view environ post watermark hex hex' req d
     = (inr (json_400 error), d, [])
  /\ allowed_file [] = inr false.
Proof.
  intros Hno error. unfold process_local_view, process_api_view, error.
  destruct (files_image req) as [file|]; [|repeat split].
  rewrite (invalid_file_rejected file (Hno file eq_refl)). repeat split.
Qed.

Lemma rejected_request_writes_nothing_witness :
  @process_local_view binary64 single_precision (fun _ => raise TypeError) no_models
    (chars "0f3a") (chars "77b1")
    (mk_request (Some (mk_file (chars "notes.png.txt") [])) (fun _ => None))
    (mk_disk [] [])
  = (inr (json_400 "Invalid file"), mk_disk [] []).
Proof.
  apply (rejected_request_writes_nothing binary64 single_precision
           (fun _ => raise TypeError) no_models (fun _ => None)
           (fun _ => http_raises TypeError) (fun _ _ => raise TypeError)
           (chars "0f3a") (chars "77b1")
           (mk_request (Some (mk_file (chars "notes.png.txt") [])) (fun _ => None))
           (mk_disk [] [])).
  intros file [= <-]. reflexivity.
Defined.

(** X11.  An accepted name with no letter, digit or hyphen before its last
    dot, such as [.png], is not answered with a JSON reply: [save_upload]
    raises IndexError outside any [try], the exception leaves the view, and
    nothing has been written.  For names of ASCII characters. *)
Theorem dotfile_upload_escapes_as_index_error (A : Arithmetic) (P : Pillow)
    (decode : octets -> result (image rgba)) (MODEL_DIR : directory)
    (environ : string -> option string) (post : http_call -> http_outcome)
    (watermark : string -> octets -> result octets)
    (hex hex' stem ext : str) (data : octets) (req : request) (d : disk) :
  files_image req = Some (mk_file (stem ++ "."%char :: ext) data) ->
  Forall (fun c => is_ascii c = true) stem ->
  In (lower ext) ALLOWED_EXT ->
  existsb solid stem = false ->
  process_local_view decode MODEL_DIR hex hex' req d = (inl IndexError, d)
  /\ process_api_view environ post watermark hex hex' req d
     = (inl IndexError, d, []).
Proof.
  intros Hf _ Hin Hsolid.
  destruct (allowed_letters ext Hin) as [Hl _].
  assert (Hdot : ~ In "."%char ext).
  { intros Hd. apply (proj1 (Forall_forall _ _) Hl) in Hd.
    now apply letter_facts in Hd. }
  assert (Hok : allowed_file (stem ++ "."%char :: ext) = inr true).
  { rewrite (allowed_file_app stem ext Hdot). f_equal. now apply in_set_In. }
  assert (Hs : save_upload hex (mk_file (stem ++ "."%char :: ext) data)
                 (UPLOAD_DIR d) = inl IndexError).
  { unfold save_upload. cbn [filename].
    rewrite (proj1 (secure_filename_allowed stem ext Hin) Hsolid).
    now rewrite (rsplit1_none _ ext Hdot). }
  unfold process_local_view, process_api_view.
  rewrite Hf, (invalid_file_accepted (mk_file (stem ++ "."%char :: ext) data) Hok), Hs.
  split; reflexivity.
Qed.

Lemma dotfile_upload_escapes_as_index_error_witness :
  @process_local_view binary64 single_precision (fun _ => raise TypeError) no_models
    (chars "0f3a") (chars "77b1")
    (mk_request (Some (mk_file (chars "._.jpeg") [])) (fun _ => None))
    (mk_disk [] [])
  = (inl IndexError, mk_disk [] []).
Proof.
  apply (dotfile_upload_escapes_as_index_error binary64 single_precision
           (fun _ => raise TypeError) no_models (fun _ => None)
           (fun _ => http_raises TypeError) (fun _ _ => raise TypeError)
           (chars "0f3a") (chars "77b1") (chars "._") (chars "jpeg") []
           (mk_request (Some (mk_file (chars "._.jpeg") [])) (fun _ => None))
           (mk_disk [] []) eq_refl).
  - repeat constructor.
  - right. right. left. reflexivity.
  - reflexivity.
Defined.

Lemma save_upload_solid hex stem ext data dir :
  In (lower ext) ALLOWED_EXT -> existsb solid stem = true ->
  allowed_file (stem ++ "."%char :: ext) = inr true
  /\ save_upload hex (mk_file (stem ++ "."%char :: ext) data) dir
     = inr (hex ++ "."%char :: lower ext,
            write (hex ++ "."%char :: lower ext) (Octets data) dir).
Proof.
  intros Hin Hsolid.
  destruct (allowed_letters ext Hin) as [Hl _].
  assert (Hdot : ~ In "."%char ext).
  { intros Hd. apply (proj1 (Forall_forall _ _) Hl) in Hd.
    now apply letter_facts in Hd. }
  split.
  - rewrite (allowed_file_app stem ext Hdot). f_equal. now apply in_set_In.
  - unfold save_upload. cbn [filename stream].
    destruct (proj2 (secure_filename_allowed stem ext Hin) Hsolid) as (x & ->).
    now rewrite (rsplit1_app _ x ext Hdot).
Qed.

(** X12.  Once the name is accepted and stored, the local view leaves the
    upload on the disk under the random name whatever follows, with the
    bytes received, and touches no other upload.  The result folder changes
    only with the status 200, by the one file that holds the composited
    image; when the bytes do not decode, the exception leaves the view.  For
    names of ASCII characters. *)
Theorem upload_stays_result_only_on_success (A : Arithmetic) (P : Pillow)
    (decode : octets -> result (image rgba)) (MODEL_DIR : directory)
    (hex hex' stem ext : str) (data : octets) (req : request) (d : disk) :
  files_image req = Some (mk_file (stem ++ "."%char :: ext) data) ->
  Forall (fun c => is_ascii c = true) stem ->
  In (lower ext) ALLOWED_EXT ->
  existsb solid stem = true ->
  let uid := hex ++ "."%char :: lower ext in
  let out_uid := hex' ++ chars ".png" in
  let answer := process_local_view decode MODEL_DIR hex hex' req d in
  lookup uid (UPLOAD_DIR (snd answer)) = Some (Octets data)
  /\ (forall name, name <> uid ->
        lookup name (UPLOAD_DIR (snd answer)) = lookup name (UPLOAD_DIR d))
  /\ ((exists pil after,
         decode data = inr pil
         /\ process_local MODEL_DIR (form_get req "model" "segmenter.pkl") pil
            = ok_200 after
         /\ fst answer = inr (json_200 (static "/static/uploads/" uid)
                                       (static "/static/results/" out_uid))
         /\ RESULT_DIR (snd answer) = write out_uid (PNG after) (RESULT_DIR d))
      \/ (RESULT_DIR (snd answer) = RESULT_DIR d
          /\ ((exists e, decode data = inl e /\ fst answer = inl e)
              \/ exists e, fst answer = inr (json_500 e)))).
Proof.
  intros Hf _ Hin Hsolid uid out_uid answer.
  destruct (save_upload_solid hex stem ext data (UPLOAD_DIR d) Hin Hsolid)
    as [Hok Hs].
  unfold answer.
  rewrite (process_local_view_stored decode MODEL_DIR hex hex' req d
             (mk_file (stem ++ "."%char :: ext) data) uid Hf Hok Hs).
  cbn [stream]. fold out_uid.
  destruct (decode data) as [e | pil].
  - cbn [fst snd UPLOAD_DIR RESULT_DIR]. split; [apply lookup_write_same|].
    split; [intros name Hn; now apply lookup_write_other|].
    right. split; [reflexivity|]. left. now exists e.
  - destruct (process_local MODEL_DIR _ pil) as [after | e] eqn:Hp;
      cbn [fst snd UPLOAD_DIR RESULT_DIR];
      (split; [apply lookup_write_same|]);
      (split; [intros name Hn; now apply lookup_write_other|]).
    + left. exists pil, after. auto.
    + right. split; [reflexivity|]. right. now exists e.
Qed.

Lemma upload_stays_result_only_on_success_witness :
  lookup (chars "0f3a.png")
    (UPLOAD_DIR (snd (@process_local_view binary64 single_precision
       (fun _ => raise TypeError) no_models (chars "0f3a") (chars "77b1")
       (mk_request (Some (mk_file (chars "my cat.PNG") [])) (fun _ => None))
       (mk_disk [] []))))
  = Some (Octets []).
Proof.
  apply (upload_stays_result_only_on_success binary64 single_precision
           (fun _ => raise TypeError) no_models
           (chars "0f3a") (chars "77b1") (chars "my cat") (chars "PNG") []
           (mk_request (Some (mk_file (chars "my cat.PNG") [])) (fun _ => None))
           (mk_disk [] []) eq_refl).
  - repeat constructor.
  - left. reflexivity.
  - reflexivity.
Defined.

(** * The provider *)

Lemma provider_map_some name var :
  provider_map name = Some var -> In name providers.
Proof.
  unfold provider_map, providers.
  destruct (String.eqb_spec name "remove.bg") as [-> | _]; [cbn; auto|].
  destruct (String.eqb_spec name "clipdrop") as [-> | _]; [cbn; auto|].
  destruct (String.eqb_spec name "photoroom") as [-> | _]; [cbn; auto|].
  discriminate.
Qed.

Section ProviderLemmas.
Variable environ : string -> option string.
Variable post : http_call -> http_outcome.
Variable watermark : string -> octets -> result octets.

Lemma call_provider_without_key name data :
  usable_key environ name = None ->
  call_provider environ post watermark name data
  = (watermark "API KEY MISSING" data, []).
Proof.
  unfold usable_key, call_provider.
  destruct (provider_map name) as [v|]; [|reflexivity].
  destruct (environ v) as [[|c k]|]; [reflexivity | discriminate | reflexivity].
Qed.

(** The test [resp.status_code == 200 and resp.content]. *)
Lemma response_test {T : Type} (status : Z) (content : octets)
    (a : octets -> T) (b : T) :
  match status with
  | 200%Z => match content with
             | [] => b
             | x :: c => a (x :: c)
             end
  | _ => b
  end
  = if (status =? 200)%Z && negb (is_empty content) then a content else b.
Proof.
  destruct status as [|[q|q|]|]; try reflexivity;
    repeat (destruct q as [q|q|]; try reflexivity).
  destruct content; reflexivity.
Qed.

Lemma call_provider_with_key name data key :
  usable_key environ name = Some key ->
  let sent := mk_call ("https://api.example.com/" ++ name ++ "/remove")
                      ("Bearer " ++ key) data in
  call_provider environ post watermark name data =
  (match post sent with
   | http_raises _ => watermark "API ERROR" data
   | http_response status content =>
       if (status =? 200)%Z && negb (is_empty content) then inr content
       else watermark "API ERROR" data
   end, [sent]).
Proof.
  unfold usable_key, call_provider.
  destruct (provider_map name) as [v|]; [|discriminate].
  destruct (environ v) as [[|c k]|]; [discriminate | | discriminate].
  intros [= <-]. cbv zeta.
  destruct (post _) as [e | status content]; [reflexivity|].
  rewrite (response_test status content
             (fun out => (@inr exn octets out, [_]))
             (watermark "API ERROR" data, [_])).
  now destruct ((status =? 200)%Z && negb (is_empty content)).
Qed.

Lemma usable_key_cases name :
  usable_key environ name = None
  \/ exists key, usable_key environ name = Some key /\ key <> EmptyString
                 /\ In name providers.
Proof.
  unfold usable_key. destruct (provider_map name) as [v|] eqn:Hv; [|now left].
  destruct (environ v) as [[|c k]|]; [now left | | now left].
  right. exists (String c k). repeat split; [discriminate|].
  now apply provider_map_some with (var := v).
Qed.

End ProviderLemmas.

(** X13.  [call_provider] sends at most one request, and only for one of
    the three providers with a key that is set and not empty: the request
    then goes to the URL of that provider, with that key and the image
    received.  For any other provider name, or without a key, nothing is
    sent and the answer is the image marked API KEY MISSING. *)
Theorem key_goes_to_its_provider_only
    (environ : string -> option string) (post : http_call -> http_outcome)
    (watermark : string -> octets -> result octets)
    (name : string) (data : octets) :
  let answer := call_provider environ post watermark name data in
  (snd answer = [] /\ usable_key environ name = None
   /\ fst answer = watermark "API KEY MISSING"%string data)
  \/ (exists key,
        usable_key environ name = Some key /\ key <> EmptyString
        /\ In name providers
        /\ snd answer =
           [mk_call ("https://api.example.com/" ++ name ++ "/remove")%string
                    ("Bearer " ++ key)%string data]).
Proof.
  intros answer. unfold answer.
  destruct (usable_key_cases environ name) as [Hk | (key & Hk & Hne & Hin)].
  - left. rewrite (call_provider_without_key environ post watermark name data Hk).
    auto.
  - right. exists key. repeat split; try assumption.
    now rewrite (call_provider_with_key environ post watermark name data key Hk).
Qed.

(** [call_provider] raises only what the drawing of the text raises. *)
Lemma call_provider_raises
    (environ : string -> option string) (post : http_call -> http_outcome)
    (watermark : string -> octets -> result octets)
    (name : string) (data : octets) (e : exn) :
  fst (call_provider environ post watermark name data) = inl e ->
  watermark "API KEY MISSING"%string data = inl e
  \/ watermark "API ERROR"%string data = inl e.
Proof.
  destruct (usable_key_cases environ name) as [Hk | (key & Hk & _ & _)].
  - rewrite (call_provider_without_key environ post watermark name data Hk).
    cbn [fst]. auto.
  - rewrite (call_provider_with_key environ post watermark name data key Hk).
    cbn [fst]. destruct (post _) as [e' | status content]; [auto|].
    destruct ((status =? 200)%Z && negb (is_empty content)); [discriminate | auto].
Qed.

(** X14.  No failure of the remote call leaves [call_provider]: when
    [requests.post] raises, or the status is not 200, or the body is empty,
    the answer is the image marked API ERROR; the body of the response is
    returned for the status 200 and a body that is not empty.  The function
    raises only when the text cannot be drawn on the image. *)
Theorem remote_failure_never_escapes
    (environ : string -> option string) (post : http_call -> http_outcome)
    (watermark : string -> octets -> result octets)
    (name : string) (data : octets) :
  let answer := fst (call_provider environ post watermark name data) in
  (forall e, answer = inl e ->
     watermark "API KEY MISSING"%string data = inl e
     \/ watermark "API ERROR"%string data = inl e)
  /\ (forall key, usable_key environ name = Some key ->
        match post (mk_call ("https://api.example.com/" ++ name ++ "/remove")%string
                            ("Bearer " ++ key)%string data) with
        | http_raises _ => answer = watermark "API ERROR"%string data
        | http_response status content =>
            (status = 200%Z /\ content <> [] /\ answer = inr content)
            \/ ((status <> 200%Z \/ content = [])
                /\ answer = watermark "API ERROR"%string data)
        end).
Proof.
  intros answer. split.
  - intros e. apply call_provider_raises.
  - intros key Hk. unfold answer.
    rewrite (call_provider_with_key environ post watermark name data key Hk).
    cbn [fst]. destruct (post _) as [e | status content]; [reflexivity|].
    destruct (Z.eqb_spec status 200) as [-> | Hs]; cbn [andb].
    + destruct content as [|b content]; cbn [is_empty negb].
      * right. auto.
      * left. repeat split. discriminate.
    + right. auto.
Qed.

(** X15.  Once the upload is stored, the provider view always answers with
    JSON and keeps the upload.  The status is 200, and the result file holds
    the bytes [call_provider] returned, unless the text cannot be drawn on the
    image: then the status is 500 and no result is written.  For names of
    ASCII characters. *)
Theorem provider_view_answers_json
    (environ : string -> option string) (post : http_call -> http_outcome)
    (watermark : string -> octets -> result octets)
    (hex hex' stem ext : str) (data : octets) (req : request) (d : disk) :
  files_image req = Some (mk_file (stem ++ "."%char :: ext) data) ->
  Forall (fun c => is_ascii c = true) stem ->
  In (lower ext) ALLOWED_EXT ->
  existsb solid stem = true ->
  let uid := hex ++ "."%char :: lower ext in
  let out_uid := hex' ++ chars ".png" in
  let provided :=
    call_provider environ post watermark
      (form_get req "provider" "remove.bg") data in
  let answer := process_api_view environ post watermark hex hex' req d in
  snd answer = snd provided
  /\ UPLOAD_DIR (snd (fst answer)) = write uid (Octets data) (UPLOAD_DIR d)
  /\ ((exists out,
         fst provided = inr out
         /\ fst (fst answer) = inr (json_200 (static "/static/uploads/" uid)
                                             (static "/static/results/" out_uid))
         /\ RESULT_DIR (snd (fst answer))
            = write out_uid (Octets out) (RESULT_DIR d))
      \/ (exists e,
            fst (fst answer) = inr (json_500 e)
            /\ RESULT_DIR (snd (fst answer)) = RESULT_DIR d
            /\ (watermark "API KEY MISSING"%string data = inl e
                \/ watermark "API ERROR"%string data = inl e))).
Proof.
  intros Hf _ Hin Hsolid uid out_uid provided answer.
  destruct (save_upload_solid hex stem ext data (UPLOAD_DIR d) Hin Hsolid)
    as [Hok Hs].
  unfold answer.
  rewrite (process_api_view_stored environ post watermark hex hex' req d
             (mk_file (stem ++ "."%char :: ext) data) uid Hf Hok Hs).
  cbn [stream]. fold out_uid. fold provided.
  pose proof (call_provider_raises environ post watermark
                (form_get req "provider" "remove.bg") data) as Hraise.
  fold provided in Hraise.
  destruct provided as [[e | out] sent]; cbn [fst snd UPLOAD_DIR RESULT_DIR] in *.
  - repeat split. right. exists e. auto.
  - repeat split. left. exists out. auto.
Qed.

Lemma provider_view_answers_json_witness :
  snd (@process_api_view (fun _ => None) (fun _ => http_raises TypeError)
         (fun _ data => ret data) (chars "0f3a") (chars "77b1")
         (mk_request (Some (mk_file (chars "my cat.PNG") [])) (fun _ => None))
         (mk_disk [] []))
  = [].
Proof.
  apply (provider_view_answers_json
           (fun _ => None) (fun _ => http_raises TypeError)
           (fun _ data => ret data)
           (chars "0f3a") (chars "77b1") (chars "my cat") (chars "PNG") []
           (mk_request (Some (mk_file (chars "my cat.PNG") [])) (fun _ => None))
           (mk_disk [] []) eq_refl).
  - repeat constructor.
  - left. reflexivity.
  - reflexivity.
Defined.

(** * cleanup_old_files *)

Lemma cleanup_step_true cutoff p :
  cleanup_step cutoff p = true <->
  exists mtime, st_mtime p = inr mtime /\ (mtime < cutoff)%Z /\ unlink p = inr tt.
Proof.
  unfold cleanup_step.
  destruct (st_mtime p) as [e | mtime]; cbn [bind try_except].
  - split; [discriminate | intros (m & H & _); discriminate].
  - destruct (Z.ltb_spec mtime cutoff) as [Hlt | Hge].
    + destruct (unlink p) as [e | []]; cbn [bind try_except ret].
      * split; [discriminate | intros (m & _ & _ & H); discriminate].
      * split; [intros _; now exists mtime | reflexivity].
    + cbn [try_except ret]. split; [discriminate|].
      intros (m & [= <-] & H & _). lia.
Qed.

(** X16.  After the clean-up a path is left in its folder exactly when it
    was there and it is not the case that [stat] returned a time more than
    [hours] hours before now and [unlink] succeeded: a file modified within
    the last [hours] hours is never removed, and a path on which [stat] or
    [unlink] raises stays without stopping the clean-up of the others. *)
Theorem cleanup_removes_only_old_files (utcnow hours : Z)
    (folders : list entry * list entry) (p : entry) :
  let after := cleanup_old_files utcnow hours folders in
  let removable :=
    exists mtime, st_mtime p = inr mtime
                  /\ (hours * 3600 * 1000000 < utcnow - mtime)%Z
                  /\ unlink p = inr tt in
  (In p (fst after) <-> In p (fst folders) /\ ~ removable)
  /\ (In p (snd after) <-> In p (snd folders) /\ ~ removable).
Proof.
  intros after removable.
  assert (H : forall l,
             In p (filter (fun q => negb (cleanup_step (utcnow - timedelta hours) q)) l)
             <-> In p l /\ ~ removable).
  { intros l. rewrite filter_In.
    assert (Hr : cleanup_step (utcnow - timedelta hours) p = true <-> removable).
    { rewrite cleanup_step_true. unfold removable, timedelta.
      split; intros (m & H1 & H2 & H3); exists m; repeat split; try assumption; lia. }
    destruct (cleanup_step (utcnow - timedelta hours) p); cbn [negb].
    - split; [intros [_ H]; discriminate|].
      intros [_ Hn]. exfalso. apply Hn, Hr. reflexivity.
    - split; intros [Hin _]; split; try assumption; try reflexivity.
      intros Hrem. apply Hr in Hrem. discriminate. }
  split; apply H.
Qed.

(** * The pickle of the script *)

(** X17.  The file the script writes names the class DummySegmenter of the
    module [__main__].  In a process whose [__main__] is app.py, which binds
    no such name, the file does not load: [load_pickle_model] raises
    RuntimeError, and the request is answered with success from the
    heuristic mask. *)
Theorem script_pickle_does_not_load (A : Arithmetic) (P : Pillow)
    (sys_modules : modules) (MODEL_DIR : directory) (name : string)
    (pil : image rgba) :
  wf_image pil ->
  (forall q m, sys_modules "__main__"%string q = Some m -> In q app_names) ->
  MODEL_DIR name = Some (unpickle sys_modules segmenter_pkl) ->
  load_pickle_model MODEL_DIR name = inl RuntimeError
  /\ model_mask MODEL_DIR name pil = inl RuntimeError
  /\ exists after,
       process_local MODEL_DIR name pil = ok_200 after
       /\ apply_mask_and_save pil (fallback_mask pil) = inr after.
Proof.
  intros Hwf Hmain Hfile.
  assert (Hnone : sys_modules "__main__"%string "DummySegmenter"%string = None).
  { destruct (sys_modules "__main__"%string "DummySegmenter"%string) as [m|] eqn:E;
      [|reflexivity].
    apply Hmain in E. exfalso. revert E. unfold app_names. cbn [In].
    intros E. repeat (destruct E as [E | E]; [discriminate|]). exact E. }
  assert (Hcorrupt : MODEL_DIR name = Some corrupt).
  { rewrite Hfile. unfold unpickle, segmenter_pkl. cbn [class_module class_name].
    now rewrite Hnone. }
  assert (Hload : load_pickle_model MODEL_DIR name = inl RuntimeError)
    by (unfold load_pickle_model; now rewrite Hcorrupt).
  assert (Hmask : model_mask MODEL_DIR name pil = inl RuntimeError)
    by (unfold model_mask; now rewrite Hload).
  split; [exact Hload|]. split; [exact Hmask|].
  destruct (apply_mask_same_size pil (fallback_mask pil) Hwf
              (shape_fallback_mask pil))
    as (after & Hafter & _).
  exists after.
  now rewrite (process_local_fallback MODEL_DIR name pil RuntimeError Hmask), Hafter.
Qed.

Lemma script_pickle_does_not_load_witness :
  model_mask
    (fun _ => Some (unpickle (fun _ _ => None) segmenter_pkl))
    "segmenter.pkl" sample_image
  = inl RuntimeError.
Proof.
  apply (script_pickle_does_not_load binary64 single_precision
           (fun _ _ => None)
           (fun _ => Some (unpickle (fun _ _ => None) segmenter_pkl))
           "segmenter.pkl" sample_image eq_refl).
  - intros q m H. discriminate.
  - reflexivity.
Defined.

(** * Scenarios, evaluated in binary64 *)

Example margin_values :
  margin 100 100 = 5%Z /\ margin 400 300 = 15%Z /\ margin 2 3 = 5%Z.
Proof. repeat split; reflexivity. Qed.

(** Python's [a[-5:]] and [a[0:5]] on axes of length 100 and 3. *)
Example slice_bounds_values :
  slice_bounds (Some (-5)%Z) None 100 = (95, 100)%Z
  /\ slice_bounds (Some (-5)%Z) None 3 = (0, 3)%Z
  /\ slice_bounds (Some 0%Z) (Some 5%Z) 3 = (0, 3)%Z.
Proof. repeat split; reflexivity. Qed.

(** The uniform gray image: estimate (128, 128, 128), mask all zero. *)
Example scenario_uniform_gray :
  length (corners (np_array (convert_RGB gray_image))) = 100
  /\ @bg_color binary64 (np_array (convert_RGB gray_image))
     = (of_int 128, of_int 128, of_int 128)
  /\ @fallback_mask binary64 gray_image
     = mk_array [100; 100] (repeat 0%Z (100 * 100)).
Proof. vm_compute. repeat split; reflexivity. Qed.

(** The black square on white: the mask is 255 on the square, 0 elsewhere. *)
Example scenario_black_square :
  @fallback_mask binary64 square_image =
  mk_array [100; 100]
    (tabulate2 100 100 (fun i j => if in_square i j then 255%Z else 0%Z)).
Proof. vm_compute. reflexivity. Qed.

(** One bright pixel of a line is spread over its neighbours by the blur,
    and a step becomes a ramp; the two weights differ by one unit here. *)
Example gaussian_blur_line :
  pixels (@gaussian_blur single_precision
            (mk_image 7 1 [0; 0; 0; 255; 0; 0; 0]%Z))
  = [1; 14; 60; 103; 60; 14; 1]%Z
  /\ pixels (@gaussian_blur wider_precision
               (mk_image 7 1 [0; 0; 0; 255; 0; 0; 0]%Z))
     = [1; 14; 61; 104; 61; 14; 1]%Z
  /\ pixels (@gaussian_blur single_precision
               (mk_image 7 1 [0; 0; 0; 255; 255; 255; 255]%Z))
     = [1; 15; 75; 179; 240; 254; 255]%Z.
Proof. repeat split; reflexivity. Qed.
